(** * Page cache and lock manager of cmu15-445lab: a shallow embedding

    The development follows the C++ sources

    - [src/hash/extendible_hash.cpp]   (module [ExtendibleHash]),
    - [src/buffer/lru_replacer.cpp]    (module [LRUReplacer]),
    - [src/buffer/buffer_pool_manager.cpp] (module [BufferPoolManager]),
    - [src/concurrency/lock_manager.cpp]   (module [LockManager]).

    Every C++ member function becomes a function on an explicit state
    record.  Operations whose behaviour the C++ standard leaves undefined
    (indexing a [std::vector] past its end, signed overflow, division by
    zero) and failed [assert]s end the computation in a [Fault]. *)

From stdpp Require Import base option list sorting gmap.
From Stdlib Require Import ZArith Lia.

(** ** Results with faults *)

Inductive vec_name := vDir | vJ | vBuckets | vPages.

Inductive fault :=
| OutOfRange (v : vec_name) (idx : Z) (len : nat)
| IntOverflow
| DivByZero
| AssertFailed
| NullDeref
| OutOfFuel.

Inductive res (A : Type) :=
| Ok (a : A)
| Fault (f : fault).
Arguments Ok {A} a.
Arguments Fault {A} f.

Global Instance res_ret : MRet res := λ A a, Ok a.
Global Instance res_bind : MBind res := λ A B k m,
  match m with
  | Ok a => k a
  | Fault f => Fault f
  end.

Global Instance res_fmap : FMap res := λ A B g m,
  match m with
  | Ok a => Ok (g a)
  | Fault f => Fault f
  end.

Definition is_Ok {A} (r : res A) : Prop := ∃ a, r = Ok a.
Definition is_Fault {A} (r : res A) : Prop := ∃ f, r = Fault f.

(** The computation did not stop because a loop budget ran out. *)
Definition in_budget {A} (r : res A) : Prop := r ≠ Fault OutOfFuel.

(** ** Machine integers

    [int] is 32 bits wide and [size_t] 64 bits.  Signed arithmetic that
    leaves the range is undefined; conversions between the two types wrap. *)

Definition INT_MIN : Z := -2147483648.
Definition INT_MAX : Z := 2147483647.

Definition int_op (z : Z) : res Z :=
  if bool_decide (INT_MIN ≤ z ≤ INT_MAX)%Z then Ok z else Fault IntOverflow.

Definition to_int (z : Z) : Z := ((z + 2 ^ 31) `mod` 2 ^ 32 - 2 ^ 31)%Z.
Definition to_size_t (z : Z) : Z := (z `mod` 2 ^ 64)%Z.

(** [v[i]] on a [std::vector]: the index is converted to [size_t], so a
    negative [int] is as far out of range as a large one. *)
Definition vec_get {A} (n : vec_name) (v : list A) (i : Z) : res A :=
  if bool_decide (0 ≤ i)%Z then
    match v !! Z.to_nat i with
    | Some a => Ok a
    | None => Fault (OutOfRange n i (length v))
    end
  else Fault (OutOfRange n i (length v)).

Definition vec_set {A} (n : vec_name) (v : list A) (i : Z) (a : A) : res (list A) :=
  if bool_decide (0 ≤ i < Z.of_nat (length v))%Z
  then Ok (<[Z.to_nat i := a]> v)
  else Fault (OutOfRange n i (length v)).

(** ** Extendible hash table ([src/hash/extendible_hash.cpp]) *)

Module ExtendibleHash.
Section defs.
Context `{Countable K} {V : Type}.
(** [std::hash<K>], a [size_t], and the order [std::map<K, V>] iterates in. *)
Context (hash : K → Z) (key_le : K → K → Prop) `{!RelDecision key_le}.

Record t := mk {
  Dir : list Z;
  dirSize : Z;
  I : Z;
  bucketSize : nat;
  J : list Z;
  buckets : list (gmap K V)
}.

(** Constructor: [I(1)], [dirSize = 1 << I], two directory slots, two
    local depths, two empty buckets. *)
Definition create (size : nat) : t :=
  {| Dir := [0; 1]%Z; dirSize := Z.shiftl 1 1; I := 1; bucketSize := size;
     J := [1; 1]%Z; buckets := [∅; ∅] |}.

(** [std::hash<K>()(key) % dirSize]: the [int] divisor is converted to
    [size_t]. *)
Definition HashKey (h : t) (key : K) : res Z :=
  let d := to_size_t (dirSize h) in
  if bool_decide (d = 0%Z) then Fault DivByZero
  else Ok (to_size_t (hash key) `mod` d)%Z.

Definition GetLocalDepth (h : t) (bucket_id : Z) : res Z := vec_get vJ (J h) bucket_id.

(** The directory slot and the bucket a key is sent to. *)
Definition locate (h : t) (key : K) : res (Z * Z) :=
  hk ← HashKey h key;
  let dirIndex := to_int hk in
  bucketIndex ← vec_get vDir (Dir h) dirIndex;
  Ok (dirIndex, bucketIndex).

Definition Find (h : t) (key : K) : res (option V) :=
  '(_, bucketIndex) ← locate h key;
  b ← vec_get vBuckets (buckets h) bucketIndex;
  Ok (b !! key).

Definition Remove (h : t) (key : K) : res (bool * t) :=
  '(_, bucketIndex) ← locate h key;
  b ← vec_get vBuckets (buckets h) bucketIndex;
  bs ← vec_set vBuckets (buckets h) bucketIndex (delete key b);
  Ok (bool_decide (is_Some (b !! key)),
      {| Dir := Dir h; dirSize := dirSize h; I := I h; bucketSize := bucketSize h;
         J := J h; buckets := bs |}).

(** [std::map::insert]: an existing binding is kept. *)
Definition map_insert (key : K) (value : V) (b : gmap K V) : gmap K V :=
  match b !! key with
  | Some _ => b
  | None => <[key := value]> b
  end.

(** [for (idx = 0; idx < dirSize / 2; ++idx) Dir.push_back(Dir[idx]);] *)
Fixpoint copy_slots (n : nat) (idx : Z) (dir : list Z) : res (list Z) :=
  match n with
  | O => Ok dir
  | S n' => d ← vec_get vDir dir idx; copy_slots n' (idx + 1)%Z (dir ++ [d])
  end.

(** The rehash loop at the end of [Split]. *)
Fixpoint rehash (h : t) (kvs : list (K * V)) : res t :=
  match kvs with
  | [] => Ok h
  | (key, value) :: rest =>
      '(_, bucketIndex) ← locate h key;
      b ← vec_get vBuckets (buckets h) bucketIndex;
      bs ← vec_set vBuckets (buckets h) bucketIndex (map_insert key value b);
      rehash {| Dir := Dir h; dirSize := dirSize h; I := I h;
                bucketSize := bucketSize h; J := J h; buckets := bs |} rest
  end.

(** The entries of a [std::map] in iteration order. *)
Definition entry_le (x y : K * V) : Prop := key_le x.1 y.1.
#[local] Instance entry_le_dec : RelDecision entry_le := λ x y, decide (key_le x.1 y.1).
Definition entries (b : gmap K V) : list (K * V) :=
  merge_sort entry_le (map_to_list b).

Definition Split (h : t) (dirIndex : Z) : res t :=
  bucketIndex ← vec_get vDir (Dir h) dirIndex;
  jb ← vec_get vJ (J h) bucketIndex;
  h1 ←
    (if bool_decide (jb = I h) then
       let bs := buckets h ++ [∅] in
       i' ← int_op (I h + 1);
       ds ← int_op (dirSize h * 2);
       jb' ← int_op (jb + 1);
       j1 ← vec_set vJ (J h) bucketIndex jb';
       let last := (Z.of_nat (length bs) - 1)%Z in
       jb'' ← vec_get vJ j1 bucketIndex;
       j2 ← vec_set vJ j1 last jb'';
       dir1 ← copy_slots (Z.to_nat (ds `quot` 2)) 0 (Dir h);
       slot ← int_op (bucketIndex + ds `quot` 2);
       dir2 ← vec_set vDir dir1 slot (to_int last);
       Ok {| Dir := dir2; dirSize := ds; I := i'; bucketSize := bucketSize h;
             J := j2; buckets := bs |}
     else
       jb' ← int_op (jb + 1);
       j1 ← vec_set vJ (J h) bucketIndex jb';
       let bs := buckets h ++ [∅] in
       let last := (Z.of_nat (length bs) - 1)%Z in
       jb'' ← vec_get vJ j1 bucketIndex;
       j2 ← vec_set vJ j1 last jb'';
       slot ← int_op (bucketIndex + dirSize h `quot` 2);
       dir2 ← vec_set vDir (Dir h) slot (to_int last);
       Ok {| Dir := dir2; dirSize := dirSize h; I := I h; bucketSize := bucketSize h;
             J := j2; buckets := bs |});
  old ← vec_get vBuckets (buckets h1) bucketIndex;
  bs ← vec_set vBuckets (buckets h1) bucketIndex ∅;
  rehash {| Dir := Dir h1; dirSize := dirSize h1; I := I h1;
            bucketSize := bucketSize h1; J := J h1; buckets := bs |}
         (entries old).

(** The [while] loop of [InsertAux]; [fuel] bounds the number of splits. *)
Fixpoint InsertAux_loop (fuel : nat) (h : t) (key : K) (dirIndex bucketIndex : Z)
  : res (t * Z) :=
  b ← vec_get vBuckets (buckets h) bucketIndex;
  if bool_decide (size b = bucketSize h) then
    match fuel with
    | O => Fault OutOfFuel
    | S fuel' =>
        h' ← Split h dirIndex;
        '(dirIndex', bucketIndex') ← locate h' key;
        InsertAux_loop fuel' h' key dirIndex' bucketIndex'
    end
  else Ok (h, bucketIndex).

Definition InsertAux (fuel : nat) (h : t) (key : K) (value : V) : res t :=
  '(dirIndex, bucketIndex) ← locate h key;
  '(h', bucketIndex') ← InsertAux_loop fuel h key dirIndex bucketIndex;
  b ← vec_get vBuckets (buckets h') bucketIndex';
  bs ← vec_set vBuckets (buckets h') bucketIndex' (map_insert key value b);
  Ok {| Dir := Dir h'; dirSize := dirSize h'; I := I h'; bucketSize := bucketSize h';
        J := J h'; buckets := bs |}.

(** A [Split] that returns has stored into [J] at the index of the bucket
    it appended, and [J] never grows: at most [length J] splits can
    return, so this budget is never used up ([InsertAux_fuel] below). *)
Definition Insert (h : t) (key : K) (value : V) : res t :=
  InsertAux (S (length (J h))) h key value.

End defs.
Global Arguments t K {_ _} V.
End ExtendibleHash.

(** ** LRU replacer ([src/buffer/lru_replacer.cpp])

    [vec_] is a [std::list<T>]: the head of the Rocq list is its front. *)

Module LRUReplacer.
Section defs.
Context `{EqDecision T}.

(** The scan shared by [Insert] and [Erase], which erases the first node
    equal to [value] and stops: [None] when no node matched. *)
Fixpoint erase_first (value : T) (vec : list T) : option (list T) :=
  match vec with
  | [] => None
  | x :: rest =>
      if decide (x = value) then Some rest
      else (x ::.) <$> erase_first value rest
  end.

Definition Insert (vec : list T) (value : T) : list T :=
  value :: default vec (erase_first value vec).

(** [bool Victim(T &value)]: [None] is the [false] return, which leaves
    [value] alone; otherwise the loop has assigned every element to
    [value] in turn, and [pop_back] has dropped the last node. *)
Definition Victim (vec : list T) : option (T * list T) :=
  match vec with
  | [] => None
  | x :: rest => Some (foldl (λ _ y, y) x rest, removelast vec)
  end.

Definition Erase (vec : list T) (value : T) : bool * list T :=
  match erase_first value vec with
  | Some vec' => (true, vec')
  | None => (false, vec)
  end.

Definition Size (vec : list T) : nat := length vec.
End defs.
End LRUReplacer.

(** ** Buffer pool manager ([src/buffer/buffer_pool_manager.cpp])

    A [Page *] is the index of the frame in [pages_].  The bytes of a page
    are not modelled; the calls made to the disk manager are recorded. *)

Module BufferPoolManager.

(** Modelled from the spec: the sentinel page id of [common/config.h]
    ("Page ids are opaque integers with a sentinel INVALID = -1"). *)
Definition INVALID_PAGE_ID : Z := (-1)%Z.

Record Page := mkPage {
  page_id_ : Z;
  pin_count_ : Z;
  is_dirty_ : bool
}.

(** Modelled from the spec: a frame that was never used holds no page,
    is unpinned and clean ([page/page.h] is not part of the sources). *)
Definition fresh_page : Page :=
  {| page_id_ := INVALID_PAGE_ID; pin_count_ := 0; is_dirty_ := false |}.

Inductive disk_call :=
| WritePage (page_id : Z)
| ReadPage (page_id : Z)
| AllocatePage
| DeallocatePage (page_id : Z).

(** Modelled from the spec: the disk manager ([disk/disk_manager.h] is not
    part of the sources).  "AllocatePage() returns a fresh page id": ids
    are handed out in increasing order; the other calls are logged. *)
Record DiskManager := mkDisk {
  next_page_id_ : Z;
  calls : list disk_call
}.

Definition disk_log (c : disk_call) (d : DiskManager) : DiskManager :=
  {| next_page_id_ := next_page_id_ d; calls := calls d ++ [c] |}.

Definition disk_allocate (d : DiskManager) : Z * DiskManager :=
  (next_page_id_ d,
   {| next_page_id_ := (next_page_id_ d + 1)%Z; calls := calls d ++ [AllocatePage] |}).

Section defs.
(** [std::hash<page_id_t>] and the constant [BUCKET_SIZE] of
    [common/config.h]. *)
Context (hash : Z → Z) (BUCKET_SIZE : nat).

Record t := mk {
  pool_size_ : nat;
  pages_ : list Page;
  page_table_ : ExtendibleHash.t Z nat;
  replacer_ : list nat;
  free_list_ : list nat;
  disk_manager_ : DiskManager
}.

Definition create (pool_size : nat) (disk_manager : DiskManager) : t :=
  {| pool_size_ := pool_size;
     pages_ := replicate pool_size fresh_page;
     page_table_ := ExtendibleHash.create BUCKET_SIZE;
     replacer_ := [];
     free_list_ := seq 0 pool_size;
     disk_manager_ := disk_manager |}.

Definition pt_Find := ExtendibleHash.Find (V := nat) hash.
Definition pt_Remove := ExtendibleHash.Remove (V := nat) hash.
Definition pt_Insert := ExtendibleHash.Insert (V := nat) hash Z.le.

(** Dereferencing a [Page *]. *)
Definition page_at (s : t) (f : nat) : res Page :=
  vec_get vPages (pages_ s) (Z.of_nat f).

Definition set_page (s : t) (f : nat) (p : Page) : res t :=
  ps ← vec_set vPages (pages_ s) (Z.of_nat f) p;
  Ok {| pool_size_ := pool_size_ s; pages_ := ps; page_table_ := page_table_ s;
        replacer_ := replacer_ s; free_list_ := free_list_ s;
        disk_manager_ := disk_manager_ s |}.

Definition set_page_table (s : t) (pt : ExtendibleHash.t Z nat) : t :=
  {| pool_size_ := pool_size_ s; pages_ := pages_ s; page_table_ := pt;
     replacer_ := replacer_ s; free_list_ := free_list_ s;
     disk_manager_ := disk_manager_ s |}.

Definition set_replacer (s : t) (vec : list nat) : t :=
  {| pool_size_ := pool_size_ s; pages_ := pages_ s; page_table_ := page_table_ s;
     replacer_ := vec; free_list_ := free_list_ s;
     disk_manager_ := disk_manager_ s |}.

Definition set_free_list (s : t) (l : list nat) : t :=
  {| pool_size_ := pool_size_ s; pages_ := pages_ s; page_table_ := page_table_ s;
     replacer_ := replacer_ s; free_list_ := l;
     disk_manager_ := disk_manager_ s |}.

Definition set_disk (s : t) (d : DiskManager) : t :=
  {| pool_size_ := pool_size_ s; pages_ := pages_ s; page_table_ := page_table_ s;
     replacer_ := replacer_ s; free_list_ := free_list_ s;
     disk_manager_ := d |}.

(** Steps 3 and 4 of [FetchPage] (lines 85 to 93): bind the frame to the
    page, read the page, pin it. *)
Definition FetchPage_install (s : t) (f : nat) (page_id : Z) : res (option nat * t) :=
  p ← page_at s f;
  s ← set_page s f {| page_id_ := page_id; pin_count_ := pin_count_ p;
                      is_dirty_ := is_dirty_ p |};
  pt ← pt_Insert (page_table_ s) page_id f;
  let s := set_page_table s pt in
  let s := set_disk s (disk_log (ReadPage page_id) (disk_manager_ s)) in
  s ← set_page s f {| page_id_ := page_id; pin_count_ := 1; is_dirty_ := false |};
  Ok (Some f, s).

Definition FetchPage (s : t) (page_id : Z) : res (option nat * t) :=
  if bool_decide (page_id = INVALID_PAGE_ID) then Ok (None, s)
  else
    r ← pt_Find (page_table_ s) page_id;
    match r with
    | Some f =>
        p ← page_at s f;
        pc ← int_op (pin_count_ p + 1);
        s ← set_page s f {| page_id_ := page_id_ p; pin_count_ := pc;
                            is_dirty_ := is_dirty_ p |};
        Ok (Some f, set_replacer s (LRUReplacer.Erase (replacer_ s) f).2)
    | None =>
        match free_list_ s with
        | f :: rest => FetchPage_install (set_free_list s rest) f page_id
        | [] =>
            match LRUReplacer.Victim (replacer_ s) with
            | Some (f, vec) =>
                let s := set_replacer s vec in
                p ← page_at s f;
                if bool_decide (pin_count_ p ≠ 0%Z) then Ok (None, s)
                else
                  let s :=
                    if is_dirty_ p
                    then set_disk s (disk_log (WritePage (page_id_ p)) (disk_manager_ s))
                    else s in
                  '(_, pt) ← pt_Remove (page_table_ s) (page_id_ p);
                  FetchPage_install (set_page_table s pt) f page_id
            | None => Ok (None, s)
            end
        end
    end.

Definition UnpinPage (s : t) (page_id : Z) (is_dirty : bool) : res (bool * t) :=
  r ← pt_Find (page_table_ s) page_id;
  match r with
  | None => Ok (false, s)
  | Some f =>
      p ← page_at s f;
      if bool_decide (pin_count_ p ≤ 0)%Z then Ok (false, s)
      else
        let pc := (pin_count_ p - 1)%Z in
        let s :=
          if bool_decide (pc ≤ 0)%Z
          then set_replacer s (LRUReplacer.Insert (replacer_ s) f)
          else s in
        s ← set_page s f {| page_id_ := page_id_ p; pin_count_ := pc;
                            is_dirty_ := is_dirty |};
        Ok (true, s)
  end.

Definition FlushPage (s : t) (page_id : Z) : res (bool * t) :=
  if bool_decide (page_id = INVALID_PAGE_ID) then Ok (false, s)
  else
    r ← pt_Find (page_table_ s) page_id;
    match r with
    | Some f =>
        p ← page_at s f;
        Ok (true, set_disk s (disk_log (WritePage (page_id_ p)) (disk_manager_ s)))
    | None => Ok (false, s)
    end.

Definition DeletePage (s : t) (page_id : Z) : res (bool * t) :=
  r ← pt_Find (page_table_ s) page_id;
  match r with
  | Some f =>
      p ← page_at s f;
      if bool_decide (pin_count_ p > 0)%Z then Ok (false, s)
      else
        '(_, pt) ← pt_Remove (page_table_ s) (page_id_ p);
        let s := set_page_table s pt in
        s ← set_page s f {| page_id_ := INVALID_PAGE_ID; pin_count_ := 0;
                            is_dirty_ := false |};
        let s := set_free_list s (free_list_ s ++ [f]) in
        Ok (true, set_disk s (disk_log (DeallocatePage page_id) (disk_manager_ s)))
  | None =>
      Ok (true, set_disk s (disk_log (DeallocatePage page_id) (disk_manager_ s)))
  end.

Definition NewPage (s : t) : res (option (nat * Z) * t) :=
  let acquired :=
    match free_list_ s with
    | f :: rest => Some (f, set_free_list s rest)
    | [] =>
        match LRUReplacer.Victim (replacer_ s) with
        | Some (f, vec) => Some (f, set_replacer s vec)
        | None => None
        end
    end in
  match acquired with
  | None => Ok (None, s)
  | Some (f, s) =>
      let '(page_id, d) := disk_allocate (disk_manager_ s) in
      let s := set_disk s d in
      p ← page_at s f;
      let s :=
        if is_dirty_ p
        then set_disk s (disk_log (WritePage (page_id_ p)) (disk_manager_ s))
        else s in
      '(_, pt) ← pt_Remove (page_table_ s) (page_id_ p);
      pt ← pt_Insert pt page_id f;
      let s := set_page_table s pt in
      s ← set_page s f {| page_id_ := page_id; pin_count_ := 1; is_dirty_ := false |};
      Ok (Some (f, page_id), s)
  end.

(** The calls a client can make, and one call as a step of the pool. *)
Inductive call :=
| CFetchPage (page_id : Z)
| CNewPage
| CUnpinPage (page_id : Z) (is_dirty : bool)
| CFlushPage (page_id : Z)
| CDeletePage (page_id : Z).

Definition step (s : t) (c : call) : res t :=
  match c with
  | CFetchPage page_id => snd <$> FetchPage s page_id
  | CNewPage => snd <$> NewPage s
  | CUnpinPage page_id is_dirty => snd <$> UnpinPage s page_id is_dirty
  | CFlushPage page_id => snd <$> FlushPage s page_id
  | CDeletePage page_id => snd <$> DeletePage s page_id
  end.

Fixpoint run (s : t) (cs : list call) : res t :=
  match cs with
  | [] => Ok s
  | c :: cs' => s' ← step s c; run s' cs'
  end.

End defs.
End BufferPoolManager.

(** ** Lock manager ([src/concurrency/lock_manager.cpp])

    Every member function runs under [mutex_].  A call is atomic up to its
    [cv_.wait]; when the wait predicate is false the caller sleeps
    ([Blocked]) and a later [notify_all] lets it test the predicate again
    (the [_resume] functions). *)

Module LockManager.

Inductive TransactionState := GROWING | SHRINKING | COMMITTED | ABORTED.
Inductive LockMode := SHARED | EXCLUSIVE.

Global Instance TransactionState_eq_dec : EqDecision TransactionState.
Proof. solve_decision. Defined.
Global Instance LockMode_eq_dec : EqDecision LockMode.
Proof. solve_decision. Defined.

Record Request := mkRequest {
  txn_id : Z;
  lock_mode : LockMode;
  granted : bool
}.

(** The value of [lock_table_[rid]]; [req_list] is its member [list]. *)
Record Waiting := mkWaiting {
  oldest : Z;
  exclusive_cnt : Z;
  req_list : list Request
}.

Inductive outcome := Returned (b : bool) | Blocked.

Section defs.
Context `{Countable RID}.
(** [concurrency/lock_manager.h] is not part of the sources: the value
    [oldest] has in an entry that [operator[]] creates is a parameter. *)
Context (oldest0 : Z).

(** Modelled from the spec: a new entry counts no granted exclusive
    request ("a count of granted exclusive requests"). *)
Definition new_entry : Waiting :=
  {| oldest := oldest0; exclusive_cnt := 0; req_list := [] |}.

Record Transaction := mkTransaction {
  state_ : TransactionState;
  txn_id_ : Z;
  shared_lock_set_ : gset RID;
  exclusive_lock_set_ : gset RID
}.

Record t := mk {
  lock_table_ : gmap RID Waiting;
  strict_2PL_ : bool
}.

Definition create (strict_2PL : bool) : t :=
  {| lock_table_ := ∅; strict_2PL_ := strict_2PL |}.

Definition begin_txn (id : Z) : Transaction :=
  {| state_ := GROWING; txn_id_ := id; shared_lock_set_ := ∅;
     exclusive_lock_set_ := ∅ |}.

Definition SetState (txn : Transaction) (s : TransactionState) : Transaction :=
  {| state_ := s; txn_id_ := txn_id_ txn; shared_lock_set_ := shared_lock_set_ txn;
     exclusive_lock_set_ := exclusive_lock_set_ txn |}.

Definition set_lock_sets (txn : Transaction) (sh ex : gset RID) : Transaction :=
  {| state_ := state_ txn; txn_id_ := txn_id_ txn; shared_lock_set_ := sh;
     exclusive_lock_set_ := ex |}.

(** [lock_table_[rid]]: a missing entry is created. *)
Definition entry (lm : t) (rid : RID) : Waiting :=
  default new_entry (lock_table_ lm !! rid).

Definition set_entry (lm : t) (rid : RID) (w : Waiting) : t :=
  {| lock_table_ := <[rid := w]> (lock_table_ lm); strict_2PL_ := strict_2PL_ lm |}.

Definition assert (b : bool) : res unit :=
  if b then Ok () else Fault AssertFailed.

(** [cur->granted = true] for the request the wait predicate stopped at:
    the first one of the transaction.  [None] when there is none, in
    which case [cur] is still the null pointer. *)
Fixpoint grant_first (id : Z) (l : list Request) : option (list Request) :=
  match l with
  | [] => None
  | r :: rest =>
      if bool_decide (txn_id r ≠ id) then (r ::.) <$> grant_first id rest
      else Some ({| txn_id := txn_id r; lock_mode := lock_mode r; granted := true |} :: rest)
  end.

(** *** LockShared *)

(** Lines 11 to 32: the result is [false] when the call has returned
    [false], [true] when the request is queued and the caller goes on to
    wait. *)
Definition LockShared_enqueue (lm : t) (txn : Transaction) (rid : RID)
  : res (bool * t * Transaction) :=
  if bool_decide (state_ txn = ABORTED) then Ok (false, lm, txn)
  else
    _ ← assert (bool_decide (state_ txn = GROWING));
    _ ← assert (bool_decide (rid ∉ shared_lock_set_ txn));
    let request := {| txn_id := txn_id_ txn; lock_mode := SHARED; granted := false |} in
    match lock_table_ lm !! rid with
    | None =>
        Ok (true,
            set_entry lm rid {| oldest := txn_id_ txn;
                                exclusive_cnt := exclusive_cnt new_entry;
                                req_list := [request] |},
            txn)
    | Some w =>
        if bool_decide (exclusive_cnt w ≠ 0%Z) && bool_decide (txn_id_ txn > oldest w)%Z
        then Ok (false, lm, SetState txn ABORTED)
        else
          Ok (true,
              set_entry lm rid {| oldest := txn_id_ txn;
                                  exclusive_cnt := exclusive_cnt w;
                                  req_list := req_list w ++ [request] |},
              txn)
    end.

(** The wait predicate of lines 36 to 50. *)
Fixpoint LockShared_pred (id : Z) (l : list Request) : bool :=
  match l with
  | [] => true
  | r :: rest =>
      if bool_decide (txn_id r ≠ id) then
        if bool_decide (lock_mode r ≠ SHARED) || granted r then false
        else LockShared_pred id rest
      else true
  end.

(** Lines 36 to 57, entered with the mutex held. *)
Definition LockShared_resume (lm : t) (txn : Transaction) (rid : RID)
  : res (outcome * t * Transaction) :=
  let w := entry lm rid in
  if LockShared_pred (txn_id_ txn) (req_list w) then
    match grant_first (txn_id_ txn) (req_list w) with
    | None => Fault NullDeref
    | Some l =>
        Ok (Returned true,
            set_entry lm rid {| oldest := oldest w; exclusive_cnt := exclusive_cnt w;
                                req_list := l |},
            set_lock_sets txn ({[rid]} ∪ shared_lock_set_ txn) (exclusive_lock_set_ txn))
    end
  else Ok (Blocked, set_entry lm rid w, txn).

Definition LockShared (lm : t) (txn : Transaction) (rid : RID)
  : res (outcome * t * Transaction) :=
  '(queued, lm, txn) ← LockShared_enqueue lm txn rid;
  if queued : bool then LockShared_resume lm txn rid
  else Ok (Returned false, lm, txn).

(** *** LockExclusive *)

Definition LockExclusive_enqueue (lm : t) (txn : Transaction) (rid : RID)
  : res (bool * t * Transaction) :=
  if bool_decide (state_ txn = ABORTED) then Ok (false, lm, txn)
  else
    _ ← assert (bool_decide (state_ txn = GROWING));
    _ ← assert (bool_decide (rid ∉ exclusive_lock_set_ txn));
    let request := {| txn_id := txn_id_ txn; lock_mode := EXCLUSIVE; granted := false |} in
    match lock_table_ lm !! rid with
    | None =>
        Ok (true,
            set_entry lm rid {| oldest := txn_id_ txn;
                                exclusive_cnt := exclusive_cnt new_entry;
                                req_list := [request] |},
            txn)
    | Some w =>
        if bool_decide (txn_id_ txn > oldest w)%Z
        then Ok (false, lm, SetState txn ABORTED)
        else
          Ok (true,
              set_entry lm rid {| oldest := txn_id_ txn;
                                  exclusive_cnt := exclusive_cnt w;
                                  req_list := req_list w ++ [request] |},
              txn)
    end.

Fixpoint LockExclusive_pred (id : Z) (l : list Request) : bool :=
  match l with
  | [] => true
  | r :: rest =>
      if bool_decide (txn_id r ≠ id) then
        if granted r then false else LockExclusive_pred id rest
      else true
  end.

Definition LockExclusive_resume (lm : t) (txn : Transaction) (rid : RID)
  : res (outcome * t * Transaction) :=
  let w := entry lm rid in
  if LockExclusive_pred (txn_id_ txn) (req_list w) then
    match grant_first (txn_id_ txn) (req_list w) with
    | None => Fault NullDeref
    | Some l =>
        Ok (Returned true,
            set_entry lm rid {| oldest := oldest w;
                                exclusive_cnt := (exclusive_cnt w + 1)%Z;
                                req_list := l |},
            set_lock_sets txn (shared_lock_set_ txn) ({[rid]} ∪ exclusive_lock_set_ txn))
    end
  else Ok (Blocked, set_entry lm rid w, txn).

Definition LockExclusive (lm : t) (txn : Transaction) (rid : RID)
  : res (outcome * t * Transaction) :=
  '(queued, lm, txn) ← LockExclusive_enqueue lm txn rid;
  if queued : bool then LockExclusive_resume lm txn rid
  else Ok (Returned false, lm, txn).

(** *** LockUpgrade *)

Definition LockUpgrade_pred (id : Z) (l : list Request) : bool :=
  match l with
  | [] => true
  | r :: rest =>
      if bool_decide (txn_id r ≠ id) then false
      else forallb (λ r', negb (granted r')) rest
  end.

Definition LockUpgrade_resume (lm : t) (txn : Transaction) (rid : RID)
  : res (outcome * t * Transaction) :=
  let w := entry lm rid in
  if LockUpgrade_pred (txn_id_ txn) (req_list w) then
    match req_list w with
    | [] => Fault NullDeref
    | cur :: rest =>
        Ok (Returned true,
            set_entry lm rid
              {| oldest := oldest w; exclusive_cnt := (exclusive_cnt w + 1)%Z;
                 req_list := {| txn_id := txn_id cur; lock_mode := EXCLUSIVE;
                                granted := granted cur |} :: rest |},
            set_lock_sets txn (shared_lock_set_ txn ∖ {[rid]})
                          ({[rid]} ∪ exclusive_lock_set_ txn))
    end
  else Ok (Blocked, set_entry lm rid w, txn).

Definition LockUpgrade (lm : t) (txn : Transaction) (rid : RID)
  : res (outcome * t * Transaction) :=
  if bool_decide (state_ txn = ABORTED) then Ok (Returned false, lm, txn)
  else
    _ ← assert (bool_decide (state_ txn = GROWING));
    _ ← assert (bool_decide (rid ∈ shared_lock_set_ txn));
    LockUpgrade_resume lm txn rid.

(** *** Unlock *)

(** Lines 151 to 163: the first request of the transaction is erased from
    the list; its mode decides which lock set and counter change. *)
Fixpoint Unlock_erase (id : Z) (l : list Request) : option (LockMode * list Request) :=
  match l with
  | [] => None
  | r :: rest =>
      if bool_decide (txn_id r = id) then Some (lock_mode r, rest)
      else '(m, rest') ← Unlock_erase id rest; Some (m, r :: rest')
  end.

(** Lines 165 to 170. *)
Definition Unlock_oldest (o : Z) (l : list Request) : Z :=
  foldl (λ o r, if bool_decide (txn_id r < o)%Z then txn_id r else o) o l.

Definition Unlock (lm : t) (txn : Transaction) (rid : RID) : res (bool * t * Transaction) :=
  _ ← assert (bool_decide (rid ∈ shared_lock_set_ txn) ||
              bool_decide (rid ∈ exclusive_lock_set_ txn));
  if strict_2PL_ lm &&
     (bool_decide (state_ txn ≠ ABORTED) || bool_decide (state_ txn ≠ COMMITTED))
  then Ok (false, lm, SetState txn ABORTED)
  else
    let txn := if bool_decide (state_ txn = GROWING) then SetState txn SHRINKING else txn in
    let w := entry lm rid in
    let '(w, txn) :=
      match Unlock_erase (txn_id_ txn) (req_list w) with
      | Some (SHARED, l) =>
          ({| oldest := oldest w; exclusive_cnt := exclusive_cnt w; req_list := l |},
           set_lock_sets txn (shared_lock_set_ txn ∖ {[rid]}) (exclusive_lock_set_ txn))
      | Some (EXCLUSIVE, l) =>
          ({| oldest := oldest w; exclusive_cnt := (exclusive_cnt w - 1)%Z; req_list := l |},
           set_lock_sets txn (shared_lock_set_ txn) (exclusive_lock_set_ txn ∖ {[rid]}))
      | None => (w, txn)
      end in
    let w := {| oldest := Unlock_oldest (oldest w) (req_list w);
                exclusive_cnt := exclusive_cnt w; req_list := req_list w |} in
    Ok (true, set_entry lm rid w, txn).

End defs.
End LockManager.

(** ** Reachable states and the statements under study *)

(** [std::hash<int>] of libstdc++ is the conversion to [size_t]. *)
Definition std_hash (k : Z) : Z := to_size_t k.

Module HashSpec.
Section defs.
Context `{Countable K} {V : Type}.
Context (hash : K → Z) (key_le : K → K → Prop) `{!RelDecision key_le}.

(** The tables a client can build with [Insert] and [Remove]. *)
Inductive reachable (size : nat) : ExtendibleHash.t K V → Prop :=
| reach_create : reachable size (ExtendibleHash.create size)
| reach_Insert h key value h' :
    reachable size h →
    ExtendibleHash.Insert hash key_le h key value = Ok h' →
    reachable size h'
| reach_Remove h key b h' :
    reachable size h →
    ExtendibleHash.Remove hash h key = Ok (b, h') →
    reachable size h'.

(** What every reachable table looks like: no [Split] has ever returned. *)
Record shape (size : nat) (h : ExtendibleHash.t K V) : Prop := {
  shape_Dir : ExtendibleHash.Dir h = [0; 1]%Z;
  shape_dirSize : ExtendibleHash.dirSize h = 2%Z;
  shape_I : ExtendibleHash.I h = 1%Z;
  shape_J : ExtendibleHash.J h = [1; 1]%Z;
  shape_buckets : length (ExtendibleHash.buckets h) = 2%nat;
  shape_bucketSize : ExtendibleHash.bucketSize h = size
}.

(** The directory slot of a key in a table of global depth 1. *)
Definition slot (key : K) : Z := (to_size_t (hash key) `mod` 2)%Z.

(** The bucket a key is sent to, in a table of that shape. *)
Definition bucket_of (h : ExtendibleHash.t K V) (key : K) : gmap K V :=
  default ∅ (ExtendibleHash.buckets h !! Z.to_nat (slot key)).

(** Bucket number [i] replaced by [b]. *)
Definition with_bucket (h : ExtendibleHash.t K V) (i : Z) (b : gmap K V)
  : ExtendibleHash.t K V :=
  {| ExtendibleHash.Dir := ExtendibleHash.Dir h;
     ExtendibleHash.dirSize := ExtendibleHash.dirSize h;
     ExtendibleHash.I := ExtendibleHash.I h;
     ExtendibleHash.bucketSize := ExtendibleHash.bucketSize h;
     ExtendibleHash.J := ExtendibleHash.J h;
     ExtendibleHash.buckets := <[Z.to_nat i := b]> (ExtendibleHash.buckets h) |}.

(** "Insert(k, v) then Find(k) == v", also when [k] was bound. *)
Definition Insert_upserts (size : nat) : Prop :=
  ∀ h key value h',
    reachable size h →
    ExtendibleHash.Insert hash key_le h key value = Ok h' →
    ExtendibleHash.Find hash h' key = Ok (Some value).

(** "Every vector access performed during Insert is within bounds." *)
Definition Insert_in_bounds (size : nat) : Prop :=
  ∀ h key value v idx len,
    reachable size h →
    ExtendibleHash.Insert hash key_le h key value ≠ Fault (OutOfRange v idx len).
End defs.
End HashSpec.

Module PoolSpec.
Section defs.
Context (hash : Z → Z) (BUCKET_SIZE : nat).
Import BufferPoolManager.

Inductive reachable (pool_size : nat) : BufferPoolManager.t → Prop :=
| reach_create d : reachable pool_size (create BUCKET_SIZE pool_size d)
| reach_step s c s' :
    reachable pool_size s → step hash s c = Ok s' → reachable pool_size s'.

(** [DeletePage page_id] finds the page resident and unpinned, and so
    hands its frame back to the free list. *)
Definition releases (s : BufferPoolManager.t) (c : call) : Prop :=
  match c with
  | CDeletePage page_id =>
      ∃ f p, pt_Find hash (page_table_ s) page_id = Ok (Some f) ∧
             page_at s f = Ok p ∧ ¬ (pin_count_ p > 0)%Z
  | _ => False
  end.

(** The states reached by calls none of which releases a frame. *)
Inductive reachable_keeping (pool_size : nat) : BufferPoolManager.t → Prop :=
| keep_create d : reachable_keeping pool_size (create BUCKET_SIZE pool_size d)
| keep_step s c s' :
    reachable_keeping pool_size s → ¬ releases s c → step hash s c = Ok s' →
    reachable_keeping pool_size s'.

(** Frame [f] is the value of some binding of the page table. *)
Definition bound_to (pt : ExtendibleHash.t Z nat) (f : nat) : Prop :=
  ∃ page_id, pt_Find hash pt page_id = Ok (Some f).

Definition resident_frame (s : BufferPoolManager.t) (f : nat) : Prop :=
  bound_to (page_table_ s) f.

(** Every page id bound in the page table is the page id of its frame. *)
Definition carries (pt : ExtendibleHash.t Z nat) (pages : list Page) : Prop :=
  ∀ page_id f, pt_Find hash pt page_id = Ok (Some f) →
               ∃ p, pages !! f = Some p ∧ page_id_ p = page_id.

Definition pinned (s : BufferPoolManager.t) (f : nat) : Prop :=
  ∃ p, pages_ s !! f = Some p ∧ (pin_count_ p > 0)%Z.

(** "If f's pin_count > 0 then f is not present in the LRU replacer, and
    f is on at most one of the free list, the page table's image, and the
    LRU ordering." *)
Definition frame_on_one_list (s : BufferPoolManager.t) (f : nat) : Prop :=
  (pinned s f → f ∉ replacer_ s) ∧
  ¬ (f ∈ free_list_ s ∧ resident_frame s f) ∧
  ¬ (f ∈ free_list_ s ∧ f ∈ replacer_ s) ∧
  ¬ (resident_frame s f ∧ f ∈ replacer_ s).

Definition frames_on_one_list (pool_size : nat) : Prop :=
  ∀ s f, reachable pool_size s → frame_on_one_list s f.

(** "UnpinPage(pid, d) on a resident page with pin_count > 0 sets the
    frame's dirty flag to the logical OR of its previous dirty flag and
    d." *)
Definition Unpin_ORs_dirty (pool_size : nat) : Prop :=
  ∀ s page_id d f p s' p',
    reachable pool_size s →
    pt_Find hash (page_table_ s) page_id = Ok (Some f) →
    page_at s f = Ok p → (pin_count_ p > 0)%Z →
    UnpinPage hash s page_id d = Ok (true, s') →
    page_at s' f = Ok p' →
    is_dirty_ p' = is_dirty_ p || d.





(** What holds of the pool after any calls: the page table has the shape
    of a table no split has touched; the frames on the free list are
    distinct, unpinned and not resident; the replacer holds frames of the
    pool; a page id is bound to a frame that carries it. *)
Record wf (s : BufferPoolManager.t) : Prop := {
  wf_page_table : HashSpec.shape BUCKET_SIZE (page_table_ s);
  wf_free_NoDup : NoDup (free_list_ s);
  wf_free : ∀ f, f ∈ free_list_ s →
                 ¬ resident_frame s f ∧
                 ∃ p, pages_ s !! f = Some p ∧ pin_count_ p = 0%Z;
  wf_replacer : ∀ f, f ∈ replacer_ s → f < length (pages_ s);
  wf_resident : carries (page_table_ s) (pages_ s);
  wf_pool_size : length (pages_ s) = pool_size_ s
}.

(** What holds in addition as long as no call has released a frame: the
    replacer holds each frame once, and only unpinned frames that are not
    on the free list. *)
Record lru_ok (s : BufferPoolManager.t) : Prop := {
  lru_NoDup : NoDup (replacer_ s);
  lru_unpinned : ∀ f p, f ∈ replacer_ s → pages_ s !! f = Some p →
                        pin_count_ p = 0%Z;
  lru_not_free : ∀ f, f ∈ replacer_ s → f ∉ free_list_ s
}.

End defs.
End PoolSpec.

Module LRUSpec.
Section defs.
Context `{EqDecision T}.

Inductive call :=
| CInsert (value : T)
| CVictim
| CErase (value : T).

Definition step (vec : list T) (c : call) : list T :=
  match c with
  | CInsert value => LRUReplacer.Insert vec value
  | CVictim => from_option snd vec (LRUReplacer.Victim vec)
  | CErase value => (LRUReplacer.Erase vec value).2
  end.

(** A history lists the calls made on a new replacer, the latest first. *)
Fixpoint replay (history : list call) : list T :=
  match history with
  | [] => []
  | c :: earlier => step (replay earlier) c
  end.

(** The time of the most recent [Insert] of [x]: the calls are numbered
    from 1 in the order they were made, and 0 stands for "never". *)
Fixpoint last_Insert (history : list call) (x : T) : nat :=
  match history with
  | [] => 0
  | CInsert y :: earlier =>
      if decide (y = x) then S (length earlier) else last_Insert earlier x
  | _ :: earlier => last_Insert earlier x
  end.
End defs.
End LRUSpec.

(** ** Sample states *)

Module Samples.
Import BufferPoolManager.

(** The page table of a pool with [BUCKET_SIZE] 50 that binds page 0 to
    frame 0, and the one that binds page 1 to frame 0. *)
Definition table_page0 : ExtendibleHash.t Z nat :=
  HashSpec.with_bucket (ExtendibleHash.create 50) 0 {[ 0%Z := 0 ]}.
Definition table_page1 : ExtendibleHash.t Z nat :=
  HashSpec.with_bucket (ExtendibleHash.create 50) 1 {[ 1%Z := 0 ]}.

(** A new pool of one frame. *)
Definition pool_new : BufferPoolManager.t :=
  create 50 1 (mkDisk 0 []).

(** The pool of one frame after [NewPage]: page 0 in frame 0, pinned once. *)
Definition pool_page0 : BufferPoolManager.t :=
  {| pool_size_ := 1; pages_ := [mkPage 0 1 false]; page_table_ := table_page0;
     replacer_ := []; free_list_ := [];
     disk_manager_ := mkDisk 1 [AllocatePage] |}.

(** ... after [FetchPage(0)] as well: pinned twice. *)
Definition pool_page0_twice : BufferPoolManager.t :=
  {| pool_size_ := 1; pages_ := [mkPage 0 2 false]; page_table_ := table_page0;
     replacer_ := []; free_list_ := [];
     disk_manager_ := mkDisk 1 [AllocatePage] |}.

(** ... after [NewPage] and [UnpinPage(0, true)]: unpinned and dirty. *)
Definition pool_page0_dirty : BufferPoolManager.t :=
  {| pool_size_ := 1; pages_ := [mkPage 0 0 true]; page_table_ := table_page0;
     replacer_ := [0]; free_list_ := [];
     disk_manager_ := mkDisk 1 [AllocatePage] |}.

(** ... after [FetchPage(1)] has then evicted page 0. *)
Definition pool_page1 : BufferPoolManager.t :=
  {| pool_size_ := 1; pages_ := [mkPage 1 1 false]; page_table_ := table_page1;
     replacer_ := []; free_list_ := [];
     disk_manager_ := mkDisk 1 [AllocatePage; WritePage 0; ReadPage 1] |}.
End Samples.

(** * Theorems *)

(** ** The fault monad *)

Lemma bind_Ok {A B} (m : res A) (k : A → res B) (b : B) :
  m ≫= k = Ok b ↔ ∃ a, m = Ok a ∧ k a = Ok b.
Proof.
  destruct m as [a|f]; simpl; split.
  - eauto.
  - intros (a' & [= ->] & Hk). exact Hk.
  - discriminate.
  - intros (a' & [=] & _).
Qed.

Lemma fmap_Ok {A B} (g : A → B) (m : res A) (b : B) :
  g <$> m = Ok b ↔ ∃ a, m = Ok a ∧ b = g a.
Proof.
  destruct m as [a|f]; simpl; split.
  - intros [= <-]. eauto.
  - intros (a' & [= ->] & ->). reflexivity.
  - discriminate.
  - intros (a' & [=] & _).
Qed.

Lemma vec_get_Ok {A} n (v : list A) (i : Z) (a : A) :
  vec_get n v i = Ok a ↔ (0 ≤ i)%Z ∧ v !! Z.to_nat i = Some a.
Proof.
  unfold vec_get. case_bool_decide.
  - destruct (v !! Z.to_nat i) eqn:E; split.
    + intros [= ->]. auto.
    + intros [_ [= ->]]. reflexivity.
    + discriminate.
    + intros [_ [=]].
  - split; [discriminate | tauto].
Qed.

Lemma vec_get_nat {A} n (v : list A) (i : nat) :
  vec_get n v (Z.of_nat i) =
  match v !! i with Some a => Ok a | None => Fault (OutOfRange n (Z.of_nat i) (length v)) end.
Proof.
  unfold vec_get. rewrite bool_decide_eq_true_2 by lia. rewrite Nat2Z.id. reflexivity.
Qed.

Lemma vec_set_nat {A} n (v : list A) (i : nat) (a : A) :
  i < length v → vec_set n v (Z.of_nat i) a = Ok (<[i := a]> v).
Proof.
  intros Hi. unfold vec_set. rewrite bool_decide_eq_true_2 by lia.
  rewrite Nat2Z.id. reflexivity.
Qed.

(** ** Extendible hash table *)

Section hash_facts.
Context `{Countable K} {V : Type}.
Context (hash : K → Z) (key_le : K → K → Prop) `{!RelDecision key_le}.
Import ExtendibleHash HashSpec.

Implicit Types (h : ExtendibleHash.t K V) (key : K) (value : V).

Lemma slot_cases key : slot hash key = 0%Z ∨ slot hash key = 1%Z.
Proof.
  unfold slot. pose proof (Z.mod_pos_bound (to_size_t (hash key)) 2). lia.
Qed.

Lemma create_shape cap : shape cap (create (K:=K) (V:=V) cap).
Proof. split; reflexivity. Qed.

Lemma shape_two_buckets cap h :
  shape cap h → ∃ b0 b1, buckets h = [b0; b1].
Proof.
  intros Hs. pose proof (shape_buckets _ _ Hs) as Hl.
  destruct (buckets h) as [|b0 [|b1 [|? ?]]]; simpl in Hl; try discriminate.
  eauto.
Qed.

Lemma shape_locate cap h key :
  shape cap h → locate hash h key = Ok (slot hash key, slot hash key).
Proof.
  intros Hs. unfold locate, HashKey.
  rewrite (shape_dirSize _ _ Hs), (shape_Dir _ _ Hs).
  change (to_size_t 2) with 2%Z. simpl. fold (slot hash key).
  destruct (slot_cases key) as [-> | ->]; reflexivity.
Qed.

Lemma shape_bucket_get cap h key :
  shape cap h →
  vec_get vBuckets (buckets h) (slot hash key) = Ok (bucket_of hash h key).
Proof.
  intros Hs. destruct (shape_two_buckets _ _ Hs) as (b0 & b1 & Hb).
  unfold bucket_of. rewrite Hb.
  destruct (slot_cases key) as [-> | ->]; reflexivity.
Qed.

Lemma shape_bucket_set cap h key b :
  shape cap h →
  vec_set vBuckets (buckets h) (slot hash key) b
  = Ok (<[Z.to_nat (slot hash key) := b]> (buckets h)).
Proof.
  intros Hs. unfold vec_set. rewrite (shape_buckets _ _ Hs).
  rewrite bool_decide_eq_true_2; [reflexivity|].
  destruct (slot_cases key) as [-> | ->]; lia.
Qed.

Lemma Find_shape cap h key :
  shape cap h → Find hash h key = Ok (bucket_of hash h key !! key).
Proof.
  intros Hs. unfold Find. rewrite (shape_locate _ _ _ Hs). simpl.
  rewrite (shape_bucket_get _ _ _ Hs). reflexivity.
Qed.

Lemma Remove_shape cap h key :
  shape cap h →
  Remove hash h key
  = Ok (bool_decide (is_Some (bucket_of hash h key !! key)),
        with_bucket h (slot hash key) (delete key (bucket_of hash h key))).
Proof.
  intros Hs. unfold Remove. rewrite (shape_locate _ _ _ Hs). simpl.
  rewrite (shape_bucket_get _ _ _ Hs). simpl.
  rewrite (shape_bucket_set _ _ _ _ Hs). reflexivity.
Qed.

(** In a table of the constructor's shape every [Split] stores past the
    end of [J]: the bucket it appended has index 2, and [J] has two
    elements. *)
Lemma Split_shape cap h key :
  shape cap h → Split hash key_le h (slot hash key) = Fault (OutOfRange vJ 2 2).
Proof.
  intros Hs. unfold Split.
  rewrite (shape_Dir _ _ Hs), (shape_J _ _ Hs), (shape_I _ _ Hs),
    (shape_dirSize _ _ Hs).
  destruct (shape_two_buckets _ _ Hs) as (b0 & b1 & ->).
  destruct (slot_cases key) as [-> | ->]; reflexivity.
Qed.

Lemma InsertAux_shape cap fuel h key value :
  shape cap h →
  InsertAux hash key_le (S fuel) h key value =
  if bool_decide (size (bucket_of hash h key) = bucketSize h)
  then Fault (OutOfRange vJ 2 2)
  else Ok (with_bucket h (slot hash key) (map_insert key value (bucket_of hash h key))).
Proof.
  intros Hs. unfold InsertAux. rewrite (shape_locate _ _ _ Hs). simpl.
  rewrite (shape_bucket_get _ _ _ Hs). simpl.
  case_bool_decide.
  - rewrite (Split_shape _ _ _ Hs). reflexivity.
  - simpl. rewrite (shape_bucket_get _ _ _ Hs). simpl.
    rewrite (shape_bucket_set _ _ _ _ Hs). reflexivity.
Qed.

Lemma Insert_shape cap h key value :
  shape cap h →
  Insert hash key_le h key value =
  if bool_decide (size (bucket_of hash h key) = bucketSize h)
  then Fault (OutOfRange vJ 2 2)
  else Ok (with_bucket h (slot hash key) (map_insert key value (bucket_of hash h key))).
Proof. intros Hs. unfold Insert. apply (InsertAux_shape _ _ _ _ _ Hs). Qed.

Lemma with_bucket_shape cap h key b :
  shape cap h → shape cap (with_bucket h (slot hash key) b).
Proof.
  intros [? ? ? ? ? ?]. split; simpl; try assumption.
  rewrite length_insert. assumption.
Qed.

Lemma Insert_Ok_shape cap h key value h' :
  shape cap h → Insert hash key_le h key value = Ok h' →
  ¬ size (bucket_of hash h key) = bucketSize h ∧
  h' = with_bucket h (slot hash key) (map_insert key value (bucket_of hash h key)) ∧
  shape cap h'.
Proof.
  intros Hs. rewrite (Insert_shape _ _ _ _ Hs). case_bool_decide; [discriminate|].
  intros [= <-]. auto using with_bucket_shape.
Qed.

Lemma reachable_shape cap h : reachable hash key_le cap h → shape cap h.
Proof.
  induction 1 as [|h key value h' _ IH Hi|h key b h' _ IH Hr].
  - apply create_shape.
  - apply (Insert_Ok_shape _ _ _ _ _ IH Hi).
  - rewrite (Remove_shape _ _ _ IH) in Hr. injection Hr as _ <-.
    apply with_bucket_shape, IH.
Qed.

Lemma bucket_of_with_bucket cap h key key' b :
  shape cap h →
  bucket_of hash (with_bucket h (slot hash key) b) key' =
  if bool_decide (slot hash key' = slot hash key) then b else bucket_of hash h key'.
Proof.
  intros Hs. destruct (shape_two_buckets _ _ Hs) as (b0 & b1 & Hb).
  unfold bucket_of, with_bucket. simpl. rewrite Hb.
  destruct (slot_cases key) as [-> | ->], (slot_cases key') as [-> | ->];
    reflexivity.
Qed.
End hash_facts.

(** *** The loop budget of [Insert] is never used up *)

Section hash_fuel.
Context `{Countable K} {V : Type}.
Context (hash : K → Z) (key_le : K → K → Prop) `{!RelDecision key_le}.
Import ExtendibleHash.

Implicit Types (h : ExtendibleHash.t K V) (key : K) (value : V).

Lemma in_budget_Ok {A} (a : A) : in_budget (Ok a).
Proof. discriminate. Qed.

Lemma in_budget_bind {A B} (m : res A) (k : A → res B) :
  in_budget m → (∀ a, m = Ok a → in_budget (k a)) → in_budget (m ≫= k).
Proof.
  destruct m as [a|f]; simpl; intros Hm Hk; [apply Hk; reflexivity|].
  intros [= ->]. apply Hm. reflexivity.
Qed.

Lemma in_budget_vec_get {A} n (v : list A) i : in_budget (vec_get n v i).
Proof. unfold vec_get. repeat case_match; discriminate. Qed.

Lemma in_budget_vec_set {A} n (v : list A) i a : in_budget (vec_set n v i a).
Proof. unfold vec_set. case_match; discriminate. Qed.

Lemma in_budget_int_op z : in_budget (int_op z).
Proof. unfold int_op. case_match; discriminate. Qed.

Lemma in_budget_locate h key : in_budget (locate hash h key).
Proof.
  unfold locate, HashKey. case_bool_decide; [discriminate|]. simpl.
  apply in_budget_bind; [apply in_budget_vec_get | intros; apply in_budget_Ok].
Qed.

Create HintDb budget.
Hint Resolve in_budget_Ok in_budget_vec_get in_budget_vec_set
  in_budget_int_op in_budget_locate : budget.

Ltac budget :=
  repeat first
    [ progress eauto with budget
    | apply in_budget_bind; [| intros ? ?]
    | match goal with |- in_budget (let '(_, _) := ?p in _) => destruct p end
    | match goal with |- in_budget (if ?b then _ else _) => destruct b end ].

Lemma in_budget_copy_slots n idx dir : in_budget (copy_slots n idx dir).
Proof.
  revert idx dir. induction n as [|n IH]; intros idx dir; simpl; budget.
Qed.

Lemma in_budget_rehash h kvs : in_budget (rehash hash h kvs).
Proof.
  revert h. induction kvs as [|[key value] kvs IH]; intros h; simpl; budget.
Qed.

Lemma in_budget_Split h dirIndex : in_budget (Split hash key_le h dirIndex).
Proof.
  pose proof in_budget_copy_slots. pose proof in_budget_rehash.
  unfold Split. budget.
Qed.

Lemma rehash_lengths h kvs h' :
  rehash hash h kvs = Ok h' →
  length (J h') = length (J h) ∧ length (buckets h') = length (buckets h).
Proof.
  revert h. induction kvs as [|[key value] kvs IH]; intros h; simpl.
  - intros [= <-]. auto.
  - intros Hr. apply bind_Ok in Hr as ([d b] & _ & Hr).
    apply bind_Ok in Hr as (bk & _ & Hr).
    apply bind_Ok in Hr as (bs & Hset & Hr).
    apply IH in Hr as [-> ->]. simpl. split; [reflexivity|].
    unfold vec_set in Hset. case_bool_decide; [|discriminate].
    injection Hset as <-. apply length_insert.
Qed.

Lemma vec_set_length {A} n (v : list A) i a v' :
  vec_set n v i a = Ok v' → length v' = length v ∧ (0 ≤ i < Z.of_nat (length v))%Z.
Proof.
  unfold vec_set. case_bool_decide; [|discriminate].
  intros [= <-]. rewrite length_insert. auto.
Qed.

(** A [Split] that returns has appended one bucket and has stored into
    [J] at that bucket's index, so [J] is at least as long as [buckets]. *)
Lemma Split_lengths h dirIndex h' :
  Split hash key_le h dirIndex = Ok h' →
  length (J h') = length (J h) ∧
  length (buckets h') = S (length (buckets h)) ∧
  length (buckets h') ≤ length (J h').
Proof.
  unfold Split. intros Hs.
  apply bind_Ok in Hs as (bucketIndex & _ & Hs).
  apply bind_Ok in Hs as (jb & _ & Hs).
  apply bind_Ok in Hs as (h1 & Hh1 & Hs).
  apply bind_Ok in Hs as (old & _ & Hs).
  apply bind_Ok in Hs as (bs & Hbs & Hs).
  apply rehash_lengths in Hs as [HJ Hb]. simpl in HJ, Hb.
  apply vec_set_length in Hbs as [Hbs _].
  assert (length (J h1) = length (J h) ∧
          length (buckets h1) = S (length (buckets h)) ∧
          length (buckets h1) ≤ length (J h1)) as (E1 & E2 & E3).
  { case_bool_decide.
    - apply bind_Ok in Hh1 as (i' & _ & Hh1).
      apply bind_Ok in Hh1 as (ds & _ & Hh1).
      apply bind_Ok in Hh1 as (jb' & _ & Hh1).
      apply bind_Ok in Hh1 as (j1 & Hj1 & Hh1).
      apply bind_Ok in Hh1 as (jb'' & _ & Hh1).
      apply bind_Ok in Hh1 as (j2 & Hj2 & Hh1).
      apply bind_Ok in Hh1 as (dir1 & _ & Hh1).
      apply bind_Ok in Hh1 as (sl & _ & Hh1).
      apply bind_Ok in Hh1 as (dir2 & _ & Hh1).
      injection Hh1 as <-. simpl.
      apply vec_set_length in Hj1 as [Hj1 _].
      apply vec_set_length in Hj2 as [Hj2 Hr].
      rewrite length_app in *. simpl in *. lia.
    - apply bind_Ok in Hh1 as (jb' & _ & Hh1).
      apply bind_Ok in Hh1 as (j1 & Hj1 & Hh1).
      apply bind_Ok in Hh1 as (jb'' & _ & Hh1).
      apply bind_Ok in Hh1 as (j2 & Hj2 & Hh1).
      apply bind_Ok in Hh1 as (sl & _ & Hh1).
      apply bind_Ok in Hh1 as (dir2 & _ & Hh1).
      injection Hh1 as <-. simpl.
      apply vec_set_length in Hj1 as [Hj1 _].
      apply vec_set_length in Hj2 as [Hj2 Hr].
      rewrite length_app in *. simpl in *. lia. }
  lia.
Qed.

Lemma InsertAux_loop_in_budget fuel h key dirIndex bucketIndex :
  length (J h) - length (buckets h) < fuel →
  in_budget (InsertAux_loop hash key_le fuel h key dirIndex bucketIndex).
Proof.
  revert h dirIndex bucketIndex.
  induction fuel as [|fuel IH]; intros h dirIndex bucketIndex Hm; [lia|].
  simpl. apply in_budget_bind; [apply in_budget_vec_get|]. intros b _.
  case_bool_decide; [|apply in_budget_Ok].
  apply in_budget_bind; [apply in_budget_Split|]. intros h' Hs.
  apply in_budget_bind; [apply in_budget_locate|]. intros [d' b'] _.
  apply IH. apply Split_lengths in Hs. lia.
Qed.

(** [Insert] never stops for lack of budget: the bound it passes to the
    loop is not a restriction of the C++ loop. *)
Lemma Insert_in_budget h key value : in_budget (Insert hash key_le h key value).
Proof.
  unfold Insert, InsertAux.
  apply in_budget_bind; [apply in_budget_locate|]. intros [d b] _.
  apply in_budget_bind; [apply InsertAux_loop_in_budget; lia|]. intros [h' b'] _.
  budget.
Qed.

Lemma InsertAux_loop_more_fuel fuel fuel' h key dirIndex bucketIndex :
  fuel ≤ fuel' →
  in_budget (InsertAux_loop hash key_le fuel h key dirIndex bucketIndex) →
  InsertAux_loop hash key_le fuel' h key dirIndex bucketIndex
  = InsertAux_loop hash key_le fuel h key dirIndex bucketIndex.
Proof.
  revert fuel' h dirIndex bucketIndex.
  induction fuel as [|fuel IH]; intros fuel' h dirIndex bucketIndex Hle.
  - destruct fuel' as [|fuel']; [reflexivity|]. simpl.
    destruct (vec_get vBuckets (buckets h) bucketIndex) as [b|f]; [|reflexivity].
    simpl. case_bool_decide; [|reflexivity]. intros Hb. exfalso. apply Hb. reflexivity.
  - destruct fuel' as [|fuel']; [lia|]. simpl.
    destruct (vec_get vBuckets (buckets h) bucketIndex) as [b|f]; [|reflexivity].
    simpl. case_bool_decide; [|reflexivity].
    destruct (Split hash key_le h dirIndex) as [h'|f]; [|reflexivity]. simpl.
    destruct (locate hash h' key) as [[d' b']|f]; [|reflexivity]. simpl.
    apply IH. lia.
Qed.

(** Any larger budget gives the result of [Insert]. *)
Lemma InsertAux_fuel fuel h key value :
  length (J h) < fuel →
  InsertAux hash key_le fuel h key value = Insert hash key_le h key value.
Proof.
  intros Hf. unfold Insert, InsertAux.
  destruct (locate hash h key) as [[d b]|f]; [|reflexivity]. simpl.
  rewrite (InsertAux_loop_more_fuel (S (length (J h))) fuel) by
    (try lia; apply InsertAux_loop_in_budget; lia).
  reflexivity.
Qed.
End hash_fuel.

(** *** Split, Insert, Find and Remove on reachable tables *)

Section hash_claims.
Context `{Countable K} {V : Type}.
Context (hash : K → Z) (key_le : K → K → Prop) `{!RelDecision key_le}.
Import ExtendibleHash HashSpec.

Implicit Types (h : ExtendibleHash.t K V) (key : K) (value : V).

(** C3.  In every table a client can build, [Split] of the bucket a key
    is sent to has [J[b] = I], appends a bucket, and then stores the new
    bucket's local depth at [J[2]] although [J] has two elements: the
    split faults instead of setting [J[b']] and the directory slot. *)
Theorem Split_reachable_stores_past_J cap h key :
  reachable hash key_le cap h →
  vec_get vJ (J h) (slot hash key) = Ok (I h) ∧
  Split hash key_le h (slot hash key) = Fault (OutOfRange vJ 2 2).
Proof.
  intros Hr. apply reachable_shape in Hr. split.
  - rewrite (shape_J _ _ Hr), (shape_I _ _ Hr).
    destruct (slot_cases hash key) as [-> | ->]; reflexivity.
  - apply (Split_shape _ _ _ _ _ Hr).
Qed.

(** C10.  [Insert] of a key whose bucket is full, in any table a client
    can build, indexes [J] out of range: [J] keeps the two elements the
    constructor gave it, and the bucket [Split] appends has index 2. *)
Theorem Insert_full_bucket_out_of_range cap h key value :
  reachable hash key_le cap h →
  size (bucket_of hash h key) = cap →
  length (J h) = 2 ∧
  Insert hash key_le h key value = Fault (OutOfRange vJ 2 2).
Proof.
  intros Hr Hfull. apply reachable_shape in Hr. split.
  - rewrite (shape_J _ _ Hr). reflexivity.
  - rewrite (Insert_shape _ _ _ _ _ _ Hr).
    rewrite bool_decide_eq_true_2; [reflexivity|].
    rewrite (shape_bucketSize _ _ Hr). exact Hfull.
Qed.

Lemma Find_Insert_same cap h key value h' :
  shape cap h → Insert hash key_le h key value = Ok h' →
  Find hash h' key = Ok (Some (default value (bucket_of hash h key !! key))).
Proof.
  intros Hs Hi. destruct (Insert_Ok_shape _ _ _ _ _ _ _ Hs Hi) as (_ & -> & Hs').
  rewrite (Find_shape _ _ _ _ Hs'), (bucket_of_with_bucket _ _ _ _ _ _ Hs).
  rewrite bool_decide_eq_true_2 by reflexivity.
  unfold map_insert. destruct (bucket_of hash h key !! key) as [old|] eqn:E; simpl.
  - rewrite E. reflexivity.
  - rewrite lookup_insert_eq. reflexivity.
Qed.

Lemma Find_Insert_other cap h key value h' key' :
  shape cap h → Insert hash key_le h key value = Ok h' → key' ≠ key →
  Find hash h' key' = Find hash h key'.
Proof.
  intros Hs Hi Hne. destruct (Insert_Ok_shape _ _ _ _ _ _ _ Hs Hi) as (_ & -> & Hs').
  rewrite (Find_shape _ _ _ _ Hs'), (Find_shape _ _ _ _ Hs),
    (bucket_of_with_bucket _ _ _ _ _ _ Hs).
  case_bool_decide as Hsl; [|reflexivity].
  unfold bucket_of. rewrite Hsl. fold (bucket_of hash h key).
  unfold map_insert. destruct (bucket_of hash h key !! key); [reflexivity|].
  rewrite lookup_insert_ne by congruence. reflexivity.
Qed.

Lemma Find_Remove_same cap h key b h' :
  shape cap h → Remove hash h key = Ok (b, h') → Find hash h' key = Ok None.
Proof.
  intros Hs. rewrite (Remove_shape _ _ _ _ Hs). intros [= _ <-].
  rewrite (Find_shape _ cap) by apply with_bucket_shape, Hs.
  rewrite (bucket_of_with_bucket _ _ _ _ _ _ Hs).
  rewrite bool_decide_eq_true_2 by reflexivity.
  rewrite lookup_delete_eq. reflexivity.
Qed.

Lemma Find_Remove_other cap h key b h' key' :
  shape cap h → Remove hash h key = Ok (b, h') → key' ≠ key →
  Find hash h' key' = Find hash h key'.
Proof.
  intros Hs. rewrite (Remove_shape _ _ _ _ Hs). intros [= _ <-] Hne.
  rewrite (Find_shape _ cap) by apply with_bucket_shape, Hs.
  rewrite (Find_shape _ _ _ _ Hs), (bucket_of_with_bucket _ _ _ _ _ _ Hs).
  case_bool_decide as Hsl; [|reflexivity].
  unfold bucket_of. rewrite Hsl. fold (bucket_of hash h key).
  rewrite lookup_delete_ne by congruence. reflexivity.
Qed.

Lemma Remove_shape_preserved cap h key b h' :
  shape cap h → Remove hash h key = Ok (b, h') → shape cap h'.
Proof.
  intros Hs. rewrite (Remove_shape _ _ _ _ Hs). intros [= _ <-].
  apply with_bucket_shape, Hs.
Qed.

(** C4, as the code has it.  On a table a client can build: [Insert]
    returns whenever the bucket of the key is not full; after an [Insert]
    that returned, [Find] gives the value the key was bound to before if
    there was one, and the inserted value otherwise; [Remove] always
    returns and leaves the key unbound. *)
Theorem Insert_keeps_binding_Remove_unbinds cap h key value :
  reachable hash key_le cap h →
  (size (bucket_of hash h key) ≠ cap → is_Ok (Insert hash key_le h key value)) ∧
  (∀ old h', Find hash h key = Ok old →
             Insert hash key_le h key value = Ok h' →
             Find hash h' key = Ok (Some (default value old))) ∧
  (∃ b h', Remove hash h key = Ok (b, h') ∧ Find hash h' key = Ok None).
Proof.
  intros Hr. apply reachable_shape in Hr. split; [|split].
  - intros Hroom. rewrite (Insert_shape _ _ _ _ _ _ Hr).
    rewrite bool_decide_eq_false_2; [eexists; reflexivity|].
    rewrite (shape_bucketSize _ _ Hr). exact Hroom.
  - intros old h'. rewrite (Find_shape _ _ _ _ Hr). intros [= <-] Hi.
    apply (Find_Insert_same _ _ _ _ _ Hr Hi).
  - destruct (Remove hash h key) as [[b h']|f] eqn:E.
    + exists b, h'. split; [reflexivity|]. apply (Find_Remove_same _ _ _ _ _ Hr E).
    + rewrite (Remove_shape _ _ _ _ Hr) in E. discriminate.
Qed.
End hash_claims.

(** A table of [int] keys with buckets of one entry, holding key 0. *)
Lemma table_with_key_0 :
  HashSpec.reachable std_hash Z.le 1
    (HashSpec.with_bucket (ExtendibleHash.create 1) 0 {[ 0%Z := 10%Z ]}).
Proof.
  eapply HashSpec.reach_Insert with (key := 0%Z) (value := 10%Z).
  - apply HashSpec.reach_create.
  - vm_compute. reflexivity.
Qed.

Lemma Split_reachable_stores_past_J_witness :
  vec_get vJ (ExtendibleHash.J
                (HashSpec.with_bucket (ExtendibleHash.create 1) 0 {[ 0%Z := 10%Z ]}))
          (HashSpec.slot std_hash 2%Z) = Ok 1%Z ∧
  ExtendibleHash.Split std_hash Z.le
    (HashSpec.with_bucket (ExtendibleHash.create 1) 0 {[ 0%Z := 10%Z ]})
    (HashSpec.slot std_hash 2%Z) = Fault (OutOfRange vJ 2 2).
Proof.
  apply (Split_reachable_stores_past_J std_hash Z.le 1
           (HashSpec.with_bucket (ExtendibleHash.create 1) 0 {[ 0%Z := 10%Z ]}) 2%Z).
  eapply HashSpec.reach_Insert with (key := 0%Z) (value := 10%Z).
  - apply HashSpec.reach_create.
  - vm_compute. reflexivity.
Defined.

Lemma Insert_full_bucket_out_of_range_witness :
  length (ExtendibleHash.J
            (HashSpec.with_bucket (ExtendibleHash.create 1) 0 {[ 0%Z := 10%Z ]})) = 2 ∧
  ExtendibleHash.Insert std_hash Z.le
    (HashSpec.with_bucket (ExtendibleHash.create 1) 0 {[ 0%Z := 10%Z ]}) 2%Z 20%Z
  = Fault (OutOfRange vJ 2 2).
Proof.
  apply (Insert_full_bucket_out_of_range std_hash Z.le 1
           (HashSpec.with_bucket (ExtendibleHash.create 1) 0 {[ 0%Z := 10%Z ]}) 2%Z 20%Z).
  - eapply HashSpec.reach_Insert with (key := 0%Z) (value := 10%Z).
    + apply HashSpec.reach_create.
    + vm_compute. reflexivity.
  - vm_compute. reflexivity.
Defined.

Lemma Insert_keeps_binding_Remove_unbinds_witness :
  let h := HashSpec.with_bucket (ExtendibleHash.create 2) 0 {[ 0%Z := 10%Z ]} in
  (size (HashSpec.bucket_of std_hash h 0%Z) ≠ 2 →
   is_Ok (ExtendibleHash.Insert std_hash Z.le h 0%Z 20%Z)) ∧
  (∀ old h', ExtendibleHash.Find std_hash h 0%Z = Ok old →
             ExtendibleHash.Insert std_hash Z.le h 0%Z 20%Z = Ok h' →
             ExtendibleHash.Find std_hash h' 0%Z = Ok (Some (default 20%Z old))) ∧
  (∃ b h', ExtendibleHash.Remove std_hash h 0%Z = Ok (b, h') ∧
           ExtendibleHash.Find std_hash h' 0%Z = Ok None).
Proof.
  apply (Insert_keeps_binding_Remove_unbinds std_hash Z.le 2
           (HashSpec.with_bucket (ExtendibleHash.create 2) 0 {[ 0%Z := 10%Z ]})
           0%Z 20%Z).
  eapply HashSpec.reach_Insert with (key := 0%Z) (value := 10%Z).
  - apply HashSpec.reach_create.
  - vm_compute. reflexivity.
Defined.

(** C4 as stated fails: with key 0 bound to 10, [Insert(0, 20)] returns and
    [Find(0)] still gives 10. *)
Lemma Insert_does_not_overwrite :
  ¬ HashSpec.Insert_upserts (V := Z) std_hash Z.le 2.
Proof.
  intros Hup.
  specialize (Hup (HashSpec.with_bucket (ExtendibleHash.create 2) 0 {[ 0%Z := 10%Z ]})
                  0%Z 20%Z
                  (HashSpec.with_bucket (ExtendibleHash.create 2) 0 {[ 0%Z := 10%Z ]})).
  assert (ExtendibleHash.Find std_hash
            (HashSpec.with_bucket (ExtendibleHash.create 2) 0 {[ 0%Z := 10%Z ]}) 0%Z
          = Ok (Some 10%Z)) as Hfind by (vm_compute; reflexivity).
  rewrite Hfind in Hup. discriminate Hup.
  - eapply HashSpec.reach_Insert with (key := 0%Z) (value := 10%Z).
    + apply HashSpec.reach_create.
    + vm_compute. reflexivity.
  - vm_compute. reflexivity.
Qed.

(** C10 as stated fails: the second of two colliding keys makes [Insert]
    index [J] out of range. *)
Lemma Insert_out_of_bounds :
  ¬ HashSpec.Insert_in_bounds (V := Z) std_hash Z.le 1.
Proof.
  intros Hin.
  apply (Hin (HashSpec.with_bucket (ExtendibleHash.create 1) 0 {[ 0%Z := 10%Z ]})
             2%Z 20%Z vJ 2%Z 2).
  - eapply HashSpec.reach_Insert with (key := 0%Z) (value := 10%Z).
    + apply HashSpec.reach_create.
    + vm_compute. reflexivity.
  - vm_compute. reflexivity.
Qed.

(** The directory slot [Split] rewrites is computed from the bucket number,
    [Dir[bucketIndex + dirSize / 2]], not from the directory slot that was
    split.  In a table whose [J] has room for the new bucket, with bucket 2
    reached through slot 3, splitting slot 3 rewrites slot 6 and leaves
    slot 7 pointing at the old bucket. *)
Lemma Split_rewrites_slot_of_bucket_number :
  ExtendibleHash.Dir <$>
    ExtendibleHash.Split std_hash Z.le
      {| ExtendibleHash.Dir := [0; 1; 0; 2]%Z; ExtendibleHash.dirSize := 4;
         ExtendibleHash.I := 2; ExtendibleHash.bucketSize := 1;
         ExtendibleHash.J := [1; 2; 2; 0]%Z;
         ExtendibleHash.buckets := [∅; ∅; {[ 3%Z := 30%Z ]}] |} 3
  = Ok [0; 1; 0; 2; 0; 1; 3; 2]%Z.
Proof. vm_compute. reflexivity. Qed.

(** ** LRU replacer *)

Section lru_facts.
Context `{EqDecision T}.
Import LRUReplacer LRUSpec.

Implicit Types (vec : list T) (x y : T) (history : list (call (T := T))).

Lemma Victim_loop_last x rest : last (x :: rest) = Some (foldl (λ _ y, y) x rest).
Proof.
  revert x. induction rest as [|y rest IH]; intros x; [reflexivity|].
  rewrite last_cons_cons. apply IH.
Qed.

Lemma Victim_snoc vec x : Victim (vec ++ [x]) = Some (x, vec).
Proof.
  unfold Victim. destruct (vec ++ [x]) as [|y rest] eqn:E.
  - destruct vec; discriminate.
  - pose proof (Victim_loop_last y rest) as Hl.
    rewrite <- E, last_snoc in Hl. injection Hl as <-.
    rewrite <- E, removelast_last. reflexivity.
Qed.

Lemma Victim_Some vec x vec' :
  Victim vec = Some (x, vec') ↔ vec = vec' ++ [x].
Proof.
  split.
  - destruct vec as [|y rest] using rev_ind; [discriminate|].
    rewrite Victim_snoc. intros [= -> ->]. reflexivity.
  - intros ->. apply Victim_snoc.
Qed.

Lemma erase_first_None value vec : erase_first value vec = None ↔ value ∉ vec.
Proof.
  induction vec as [|x vec IH]; simpl.
  - split; [intros _; apply not_elem_of_nil | reflexivity].
  - rewrite not_elem_of_cons. case_decide as Hx.
    + split; [discriminate | intros [Hne _]; congruence].
    + rewrite fmap_None, IH. split; [intros ?; split; congruence | tauto].
Qed.

Lemma erase_first_Some value vec vec' :
  erase_first value vec = Some vec' →
  vec' `sublist_of` vec ∧ (NoDup vec → value ∉ vec').
Proof.
  revert vec'. induction vec as [|x vec IH]; intros vec'; simpl; [discriminate|].
  case_decide as Hx.
  - intros [= <-]. subst x. split.
    + apply sublist_cons, reflexivity.
    + intros Hnd. apply NoDup_cons in Hnd. tauto.
  - intros Hf. apply fmap_Some in Hf as (l & Hl & ->).
    destruct (IH _ Hl) as [Hsub Hnot]. split.
    + apply sublist_skip, Hsub.
    + intros Hnd. apply NoDup_cons in Hnd as [_ Hnd].
      rewrite not_elem_of_cons. split; [congruence | auto].
Qed.




(** What one call does to the ordering: an [Insert] puts the element in
    front of what is left of the others; [Victim] and [Erase] only take
    elements away. *)
Lemma step_shape vec c :
  match c with
  | CInsert x =>
      ∃ others, step vec c = x :: others ∧ others `sublist_of` vec ∧
                (NoDup vec → x ∉ others)
  | _ => step vec c `sublist_of` vec
  end.
Proof.
  destruct c as [x| |x]; simpl.
  - unfold Insert. destruct (erase_first x vec) as [vec'|] eqn:E; simpl.
    + exists vec'. destruct (erase_first_Some _ _ _ E). auto.
    + exists vec. split; [reflexivity|]. split; [reflexivity|].
      intros _. apply erase_first_None, E.
  - destruct (Victim vec) as [[x vec']|] eqn:E; simpl; [|reflexivity].
    apply Victim_Some in E as ->. apply sublist_inserts_r. reflexivity.
  - unfold Erase. destruct (erase_first x vec) as [vec'|] eqn:E; simpl;
      [|reflexivity].
    apply (erase_first_Some _ _ _ E).
Qed.

Lemma last_Insert_le history x : last_Insert history x ≤ length history.
Proof.
  induction history as [|[y| |y] earlier IH]; simpl; try lia.
  case_decide; lia.
Qed.

Lemma StronglySorted_sublist {A} (R : relation A) (l k : list A) :
  l `sublist_of` k → StronglySorted R k → StronglySorted R l.
Proof.
  induction 1 as [|a l k Hs IH|a l k Hs IH]; intros Hk.
  - constructor.
  - apply StronglySorted_inv in Hk as [Hk Ha]. constructor; [auto|].
    rewrite Forall_forall in *. intros b Hb. apply Ha.
    eapply elem_of_sublist; eassumption.
  - apply StronglySorted_inv in Hk as [Hk _]. auto.
Qed.

(** The ordering holds each element once, every element in it has been
    inserted, and the elements stand in the order of their most recent
    [Insert], the latest in front. *)
Lemma replay_ordered history :
  NoDup (replay history) ∧
  (∀ x, x ∈ replay history → 0 < last_Insert history x) ∧
  StronglySorted (λ x y, last_Insert history y < last_Insert history x)
                 (replay history).
Proof.
  induction history as [|c earlier (Hnd & Hin & Hsort)]; cbn [replay].
  - split; [constructor|]. split; [|constructor].
    intros x Hx. apply elem_of_nil in Hx as [].
  - pose proof (step_shape (replay earlier) c) as Hstep.
    destruct c as [x| |x].
    + destruct Hstep as (others & -> & Hsub & Hfresh).
      assert (∀ y, y ∈ others → last_Insert (CInsert x :: earlier) y
                                = last_Insert earlier y) as Hold.
      { intros y Hy. simpl. case_decide as E; [|reflexivity].
        subst y. destruct (Hfresh Hnd Hy). }
      split; [|split].
      * apply NoDup_cons. split; [auto|]. eapply sublist_NoDup; eassumption.
      * intros y Hy. apply elem_of_cons in Hy as [-> | Hy].
        -- simpl. rewrite decide_True by reflexivity. lia.
        -- rewrite (Hold y Hy). apply Hin. eapply elem_of_sublist; eassumption.
      * constructor.
        -- pose proof (StronglySorted_sublist _ _ _ Hsub Hsort) as Hs.
           clear -Hs Hold. induction Hs as [|a l Hs IH Ha]; [constructor|].
           constructor.
           ++ apply IH. intros y Hy. apply Hold. apply elem_of_cons; auto.
           ++ rewrite Forall_forall in *. intros b Hb.
              rewrite (Hold a), (Hold b) by (apply elem_of_cons; auto).
              apply Ha, Hb.
        -- rewrite Forall_forall. intros y Hy. rewrite (Hold y Hy).
           simpl. rewrite decide_True by reflexivity.
           pose proof (last_Insert_le earlier y). lia.
    + split; [|split].
      * eapply sublist_NoDup; eassumption.
      * intros y Hy. apply Hin. eapply elem_of_sublist; eassumption.
      * apply (StronglySorted_sublist _ _ _ Hstep Hsort).
    + split; [|split].
      * eapply sublist_NoDup; eassumption.
      * intros y Hy. apply Hin. eapply elem_of_sublist; eassumption.
      * apply (StronglySorted_sublist _ _ _ Hstep Hsort).
Qed.

(** C8.  [Victim] on an ordering whose back is [x] returns [x] and leaves
    the ordering without its back; on an empty ordering it returns
    nothing (and has no new ordering to give).  After any history of
    calls, the element [Victim] returns is the one whose most recent
    [Insert] is older than that of every element left in the replacer,
    and it is no longer in the replacer. *)
Theorem Victim_returns_least_recently_used :
  (∀ vec x, Victim (vec ++ [x]) = Some (x, vec)) ∧
  Victim (@nil T) = None ∧
  (∀ vec, Victim vec = None → vec = []) ∧
  (∀ history x vec',
      Victim (replay history) = Some (x, vec') →
      (x ∉ vec') ∧
      (∀ y, y ∈ vec' → last_Insert history x < last_Insert history y)).
Proof.
  split; [apply Victim_snoc|]. split; [reflexivity|]. split.
  - intros [|x rest]; [reflexivity | discriminate].
  - intros history x vec' Hv. apply Victim_Some in Hv.
    destruct (replay_ordered history) as (Hnd & _ & Hsort).
    rewrite Hv in Hnd, Hsort. split.
    + apply NoDup_app in Hnd as (_ & Hdisj & _).
      intros Hx. apply (Hdisj x Hx). apply list_elem_of_singleton. reflexivity.
    + intros y Hy.
      apply (StronglySorted_app_1_elem_of _ _ _ y x Hsort Hy).
      apply list_elem_of_singleton. reflexivity.
Qed.
End lru_facts.

(** Three calls, the latest first: 1, then 2, then 1 again were inserted. *)
Lemma Victim_returns_least_recently_used_witness :
  let history := [LRUSpec.CInsert 1; LRUSpec.CInsert 2; LRUSpec.CInsert 1] in
  (2 ∉ [1]) ∧
  (∀ y, y ∈ [1] → LRUSpec.last_Insert history 2 < LRUSpec.last_Insert history y).
Proof.
  intros history.
  destruct (Victim_returns_least_recently_used (T := nat)) as (_ & _ & _ & Hhist).
  apply (Hhist history 2 [1]). reflexivity.
Defined.

(** ** Buffer pool manager *)

Section pool_facts.
Context (hash : Z → Z) (BUCKET_SIZE : nat).
Import BufferPoolManager PoolSpec.

Implicit Types (s : BufferPoolManager.t) (pt : ExtendibleHash.t Z nat)
  (pages : list Page) (f : nat) (p : Page) (page_id : Z).

Lemma page_at_Ok s f p : page_at s f = Ok p ↔ pages_ s !! f = Some p.
Proof.
  unfold page_at. rewrite vec_get_nat.
  destruct (pages_ s !! f); split; congruence.
Qed.

Lemma set_page_Ok s f p s' :
  set_page s f p = Ok s' ↔
  f < length (pages_ s) ∧
  s' = {| pool_size_ := pool_size_ s; pages_ := <[f := p]> (pages_ s);
          page_table_ := page_table_ s; replacer_ := replacer_ s;
          free_list_ := free_list_ s; disk_manager_ := disk_manager_ s |}.
Proof.
  unfold set_page, vec_set. case_bool_decide as Hi; simpl.
  - rewrite Nat2Z.id. split.
    + intros [= <-]. split; [lia | reflexivity].
    + intros [_ ->]. reflexivity.
  - split; [discriminate | intros [? _]; lia].
Qed.

(** *** The page table of the pool *)

Lemma pt_Find_Ok pt page_id :
  HashSpec.shape BUCKET_SIZE pt → ∃ r, pt_Find hash pt page_id = Ok r.
Proof. intros Hs. unfold pt_Find. rewrite (Find_shape _ _ _ _ Hs). eauto. Qed.

Lemma pt_Insert_Ok pt page_id f pt' :
  HashSpec.shape BUCKET_SIZE pt → pt_Insert hash pt page_id f = Ok pt' →
  HashSpec.shape BUCKET_SIZE pt' ∧
  (∀ page_id', page_id' ≠ page_id →
               pt_Find hash pt' page_id' = pt_Find hash pt page_id') ∧
  (∀ old, pt_Find hash pt page_id = Ok old →
          pt_Find hash pt' page_id = Ok (Some (default f old))).
Proof.
  unfold pt_Insert, pt_Find. intros Hs Hi. split; [|split].
  - apply (Insert_Ok_shape _ _ _ _ _ _ _ Hs Hi).
  - intros page_id' Hne. apply (Find_Insert_other _ _ _ _ _ _ _ _ Hs Hi Hne).
  - intros old. rewrite (Find_shape _ _ _ _ Hs). intros [= <-].
    apply (Find_Insert_same _ _ _ _ _ _ _ Hs Hi).
Qed.

Lemma pt_Remove_Ok pt page_id :
  HashSpec.shape BUCKET_SIZE pt →
  ∃ b pt', pt_Remove hash pt page_id = Ok (b, pt') ∧
           HashSpec.shape BUCKET_SIZE pt' ∧
           pt_Find hash pt' page_id = Ok None ∧
           (∀ page_id', page_id' ≠ page_id →
                        pt_Find hash pt' page_id' = pt_Find hash pt page_id').
Proof.
  unfold pt_Remove, pt_Find. intros Hs.
  destruct (ExtendibleHash.Remove hash pt page_id) as [[b pt']|e] eqn:E.
  - exists b, pt'. split; [reflexivity|]. split; [|split].
    + apply (Remove_shape_preserved _ _ _ _ _ _ Hs E).
    + apply (Find_Remove_same _ _ _ _ _ _ Hs E).
    + intros page_id' Hne. apply (Find_Remove_other _ _ _ _ _ _ _ Hs E Hne).
  - rewrite (Remove_shape _ _ _ _ Hs) in E. discriminate.
Qed.

Lemma carries_Remove pt pages page_id b pt' :
  HashSpec.shape BUCKET_SIZE pt → carries hash pt pages →
  pt_Remove hash pt page_id = Ok (b, pt') →
  HashSpec.shape BUCKET_SIZE pt' ∧ carries hash pt' pages ∧
  (∀ f, bound_to hash pt' f → bound_to hash pt f) ∧
  (∀ f p, pages !! f = Some p → page_id_ p = page_id → ¬ bound_to hash pt' f).
Proof.
  intros Hs Hc Hr.
  destruct (pt_Remove_Ok pt page_id Hs) as (b' & pt'' & Hr' & Hs' & Hgone & Hrest).
  rewrite Hr in Hr'. injection Hr' as <- <-.
  assert (∀ page_id' f, pt_Find hash pt' page_id' = Ok (Some f) →
                        page_id' ≠ page_id ∧ pt_Find hash pt page_id' = Ok (Some f))
    as Hback.
  { intros page_id' f Hf. destruct (decide (page_id' = page_id)) as [->|Hne].
    - rewrite Hgone in Hf. discriminate.
    - rewrite (Hrest _ Hne) in Hf. auto. }
  split; [exact Hs'|]. split; [|split].
  - intros page_id' f Hf. apply Hback in Hf as [_ Hf]. apply (Hc _ _ Hf).
  - intros f [page_id' Hf]. apply Hback in Hf as [_ Hf]. exists page_id'. exact Hf.
  - intros f p Hp Hid [page_id' Hf]. apply Hback in Hf as [Hne Hf].
    destruct (Hc _ _ Hf) as (p' & Hp' & Hid'). congruence.
Qed.

Lemma carries_Insert pt pages page_id f pt' p' :
  HashSpec.shape BUCKET_SIZE pt → carries hash pt pages →
  ¬ bound_to hash pt f → f < length pages →
  pt_Insert hash pt page_id f = Ok pt' → page_id_ p' = page_id →
  HashSpec.shape BUCKET_SIZE pt' ∧ carries hash pt' (<[f := p']> pages) ∧
  (∀ f', bound_to hash pt' f' → f' = f ∨ bound_to hash pt f').
Proof.
  intros Hs Hc Hun Hlt Hi Hid.
  destruct (pt_Insert_Ok _ _ _ _ Hs Hi) as (Hs' & Hrest & Hsame).
  destruct (pt_Find_Ok pt page_id Hs) as [old Hold]. specialize (Hsame _ Hold).
  assert (∀ page_id' f', pt_Find hash pt' page_id' = Ok (Some f') →
                         (page_id' = page_id ∧ f' = f) ∨
                         pt_Find hash pt page_id' = Ok (Some f')) as Hback.
  { intros page_id' f' Hf. destruct (decide (page_id' = page_id)) as [->|Hne].
    - rewrite Hsame in Hf. injection Hf as <-.
      destruct old as [f0|]; simpl; auto.
    - rewrite (Hrest _ Hne) in Hf. auto. }
  split; [exact Hs'|]. split.
  - intros page_id' f' Hf. apply Hback in Hf as [[-> ->]|Hf].
    + exists p'. split; [apply list_lookup_insert_eq, Hlt | exact Hid].
    + destruct (Hc _ _ Hf) as (p & Hp & Hpid). exists p. split; [|exact Hpid].
      rewrite list_lookup_insert_ne; [exact Hp|].
      intros <-. apply Hun. exists page_id'. exact Hf.
  - intros f' [page_id' Hf]. apply Hback in Hf as [[_ ->]|Hf]; [auto|].
    right. exists page_id'. exact Hf.
Qed.

Lemma carries_update pt pages f p p' :
  carries hash pt pages → pages !! f = Some p → page_id_ p' = page_id_ p →
  carries hash pt (<[f := p']> pages).
Proof.
  intros Hc Hp Hid page_id f' Hf. destruct (Hc _ _ Hf) as (q & Hq & Hqid).
  destruct (decide (f' = f)) as [->|Hne].
  - exists p'. split; [|congruence].
    apply list_lookup_insert_eq. apply lookup_lt_Some in Hp. exact Hp.
  - exists q. rewrite list_lookup_insert_ne by congruence. auto.
Qed.

Lemma carries_unbound pt pages f p' :
  carries hash pt pages → ¬ bound_to hash pt f → carries hash pt (<[f := p']> pages).
Proof.
  intros Hc Hun page_id f' Hf. destruct (Hc _ _ Hf) as (q & Hq & Hqid).
  exists q. split; [|exact Hqid]. rewrite list_lookup_insert_ne; [exact Hq|].
  intros <-. apply Hun. exists page_id. exact Hf.
Qed.
End pool_facts.

Section pool_invariants.
Context (hash : Z → Z) (BUCKET_SIZE : nat).
Import BufferPoolManager PoolSpec.

Implicit Types (s : BufferPoolManager.t) (pt : ExtendibleHash.t Z nat)
  (pages : list Page) (f : nat) (p : Page) (page_id : Z).

Abbreviation wf := (PoolSpec.wf hash BUCKET_SIZE).

Lemma create_unbound page_id :
  pt_Find hash (ExtendibleHash.create BUCKET_SIZE) page_id = Ok None.
Proof.
  unfold pt_Find. rewrite (Find_shape _ BUCKET_SIZE) by apply create_shape.
  unfold HashSpec.bucket_of. simpl.
  destruct (slot_cases hash page_id) as [-> | ->]; reflexivity.
Qed.

Lemma create_wf pool_size d : wf (create BUCKET_SIZE pool_size d).
Proof.
  split; simpl.
  - apply create_shape.
  - apply NoDup_seq.
  - intros f Hf. apply elem_of_seq in Hf. split.
    + intros [page_id Hb]. simpl in Hb. rewrite create_unbound in Hb. discriminate.
    + exists fresh_page. split; [|reflexivity].
      apply lookup_replicate. split; [reflexivity | lia].
  - intros f Hf. apply elem_of_nil in Hf as [].
  - intros page_id f Hb. rewrite create_unbound in Hb. discriminate.
  - apply length_replicate.
Qed.

(** One frame is rewritten and, possibly, bound in the page table; the
    free list and the replacer only lose frames. *)
Lemma wf_rebind s s' f p' :
  wf s →
  f < length (pages_ s) →
  pages_ s' = <[f := p']> (pages_ s) →
  pool_size_ s' = pool_size_ s →
  free_list_ s' `sublist_of` free_list_ s →
  f ∉ free_list_ s' →
  (∀ f0, f0 ∈ replacer_ s' → f0 ∈ replacer_ s ∨ f0 = f) →
  HashSpec.shape BUCKET_SIZE (page_table_ s') →
  carries hash (page_table_ s') (pages_ s') →
  (∀ f0, bound_to hash (page_table_ s') f0 →
         f0 = f ∨ bound_to hash (page_table_ s) f0) →
  wf s'.
Proof.
  intros [Hpt Hnd Hfree Hrep Hres Hsz] Hlt Hpages Hpool Hsub Hnot Hrsub Hpt' Hc Himg.
  split.
  - exact Hpt'.
  - eapply sublist_NoDup; eassumption.
  - intros f0 Hf0.
    destruct (Hfree f0 (elem_of_sublist _ _ _ Hf0 Hsub)) as (Hnr & p & Hp & Hpin).
    split.
    + intros Hb. apply Himg in Hb as [->|Hb]; [exact (Hnot Hf0) | exact (Hnr Hb)].
    + exists p. split; [|exact Hpin]. rewrite Hpages.
      rewrite list_lookup_insert_ne; [exact Hp|]. intros <-. exact (Hnot Hf0).
  - intros f0 Hf0. rewrite Hpages, length_insert.
    destruct (Hrsub f0 Hf0) as [Hin| ->]; [exact (Hrep f0 Hin) | exact Hlt].
  - exact Hc.
  - rewrite Hpages, length_insert, Hpool. exact Hsz.
Qed.

Lemma lru_rebind s s' f p' :
  lru_ok s →
  pages_ s' = <[f := p']> (pages_ s) →
  free_list_ s' `sublist_of` free_list_ s →
  replacer_ s' `sublist_of` replacer_ s →
  f ∉ replacer_ s' →
  lru_ok s'.
Proof.
  intros [Hnd Hun Hnf] Hpages Hfsub Hrsub Hnot. split.
  - eapply sublist_NoDup; eassumption.
  - intros f0 p Hf0 Hp. rewrite Hpages in Hp.
    rewrite list_lookup_insert_ne in Hp by (intros <-; exact (Hnot Hf0)).
    apply (Hun f0 p (elem_of_sublist _ _ _ Hf0 Hrsub) Hp).
  - intros f0 Hf0 Hfr.
    apply (Hnf f0 (elem_of_sublist _ _ _ Hf0 Hrsub)).
    eapply elem_of_sublist; eassumption.
Qed.

(** No frame is rewritten; the page table, the free list and the
    replacer only lose entries. *)
Lemma wf_shrink s s' :
  wf s → pages_ s' = pages_ s → pool_size_ s' = pool_size_ s →
  free_list_ s' `sublist_of` free_list_ s →
  replacer_ s' `sublist_of` replacer_ s →
  HashSpec.shape BUCKET_SIZE (page_table_ s') →
  carries hash (page_table_ s') (pages_ s) →
  (∀ f0, bound_to hash (page_table_ s') f0 → bound_to hash (page_table_ s) f0) →
  wf s'.
Proof.
  intros [Hpt Hnd Hfree Hrep Hres Hsz] Hp Hps Hf Hr Hpt' Hc Himg. split.
  - exact Hpt'.
  - eapply sublist_NoDup; eassumption.
  - intros f0 Hf0. rewrite Hp.
    destruct (Hfree f0 (elem_of_sublist _ _ _ Hf0 Hf)) as [Hnr Hpin].
    split; [|exact Hpin]. intros Hb. apply Hnr, Himg, Hb.
  - intros f0 Hf0. rewrite Hp. apply Hrep. eapply elem_of_sublist; eassumption.
  - rewrite Hp. exact Hc.
  - rewrite Hp, Hps. exact Hsz.
Qed.

Lemma lru_shrink s s' :
  lru_ok s → pages_ s' = pages_ s →
  free_list_ s' `sublist_of` free_list_ s →
  replacer_ s' `sublist_of` replacer_ s → lru_ok s'.
Proof.
  intros [Hnd Hun Hnf] Hp Hf Hr. split.
  - eapply sublist_NoDup; eassumption.
  - intros f0 p Hf0. rewrite Hp. apply Hun. eapply elem_of_sublist; eassumption.
  - intros f0 Hf0 Hfr. apply (Hnf f0 (elem_of_sublist _ _ _ Hf0 Hr)).
    eapply elem_of_sublist; eassumption.
Qed.

(** The old binding of a frame is removed and a new one inserted. *)
Lemma rebind_frame pt pages f p page_id b pt1 pt2 p' :
  HashSpec.shape BUCKET_SIZE pt → carries hash pt pages →
  pages !! f = Some p →
  pt_Remove hash pt (page_id_ p) = Ok (b, pt1) →
  pt_Insert hash pt1 page_id f = Ok pt2 →
  page_id_ p' = page_id →
  HashSpec.shape BUCKET_SIZE pt2 ∧ carries hash pt2 (<[f := p']> pages) ∧
  (∀ f0, bound_to hash pt2 f0 → f0 = f ∨ bound_to hash pt f0).
Proof.
  intros Hs Hc Hp Hr Hi Hid.
  destruct (carries_Remove hash BUCKET_SIZE _ _ _ _ _ Hs Hc Hr)
    as (Hs1 & Hc1 & Himg1 & Hgone).
  destruct (carries_Insert hash BUCKET_SIZE _ _ _ _ _ p' Hs1 Hc1
              (Hgone f p Hp eq_refl) (lookup_lt_Some _ _ _ Hp) Hi Hid)
    as (Hs2 & Hc2 & Himg2).
  split; [exact Hs2|]. split; [exact Hc2|].
  intros f0 Hb. apply Himg2 in Hb as [->|Hb]; auto.
Qed.

Lemma FetchPage_install_Ok s f page_id r s' :
  FetchPage_install hash s f page_id = Ok (r, s') →
  ∃ p pt', pages_ s !! f = Some p ∧
           pt_Insert hash (page_table_ s) page_id f = Ok pt' ∧
           r = Some f ∧
           s' = {| pool_size_ := pool_size_ s;
                   pages_ := <[f := mkPage page_id 1 false]> (pages_ s);
                   page_table_ := pt'; replacer_ := replacer_ s;
                   free_list_ := free_list_ s;
                   disk_manager_ := disk_log (ReadPage page_id) (disk_manager_ s) |}.
Proof.
  unfold FetchPage_install. intros Hi.
  apply bind_Ok in Hi as (p & Hp & Hi). apply page_at_Ok in Hp.
  apply bind_Ok in Hi as (s1 & Hs1 & Hi). apply set_page_Ok in Hs1 as [Hlt ->].
  simpl in Hi.
  apply bind_Ok in Hi as (pt' & Hpt & Hi).
  apply bind_Ok in Hi as (s2 & Hs2 & Hi). apply set_page_Ok in Hs2 as [_ ->].
  simpl in Hi. injection Hi as <- <-.
  exists p, pt'. rewrite list_insert_insert_eq. auto.
Qed.

Lemma Erase_sublist (vec : list nat) (x : nat) :
  (LRUReplacer.Erase vec x).2 `sublist_of` vec ∧
  (NoDup vec → x ∉ (LRUReplacer.Erase vec x).2).
Proof.
  unfold LRUReplacer.Erase.
  destruct (LRUReplacer.erase_first x vec) as [vec'|] eqn:E; simpl.
  - apply (erase_first_Some _ _ _ E).
  - split; [reflexivity|]. intros _. apply erase_first_None, E.
Qed.

Lemma resident_not_free s f :
  wf s → resident_frame hash s f → f ∉ free_list_ s.
Proof. intros Hwf Hr Hf. destruct (wf_free _ _ _ Hwf f Hf) as [Hnr _]. auto. Qed.

Ltac pool_side Hwf :=
  simpl; eauto;
  first
    [ eassumption
    | reflexivity
    | eapply lookup_lt_Some; eassumption
    | apply (wf_page_table _ _ _ Hwf)
    | apply not_elem_of_nil
    | (intros ? ?; left; eapply elem_of_sublist; eassumption)
    | (eapply carries_update;
       [apply (wf_resident _ _ _ Hwf) | eassumption | reflexivity]) ].

Lemma victim_not_left (vec_all vec : list nat) (f : nat) :
  NoDup vec_all → vec_all = vec ++ [f] → f ∉ vec.
Proof.
  intros Hnd ->. apply NoDup_app in Hnd as (_ & Hdisj & _). intros Hin.
  apply (Hdisj f Hin). apply list_elem_of_singleton. reflexivity.
Qed.

Lemma FetchPage_inv s page_id r s' :
  wf s → FetchPage hash s page_id = Ok (r, s') →
  wf s' ∧ pool_size_ s' = pool_size_ s ∧ (lru_ok s → lru_ok s').
Proof.
  intros Hwf. unfold FetchPage. case_bool_decide as Hinv.
  { intros [= <- <-]. auto. }
  intros Hf. apply bind_Ok in Hf as (found & Hfind & Hf).
  destruct found as [f|].
  - (* the page is resident *)
    apply bind_Ok in Hf as (p & Hp & Hf). apply page_at_Ok in Hp.
    apply bind_Ok in Hf as (pc & _ & Hf).
    apply bind_Ok in Hf as (s1 & Hs1 & Hf). apply set_page_Ok in Hs1 as [Hlt ->].
    simpl in Hf. injection Hf as <- <-.
    destruct (Erase_sublist (replacer_ s) f) as [Hsub Hgone].
    assert (f ∉ free_list_ s) as Hnf
        by (apply resident_not_free; [exact Hwf | eexists; exact Hfind]).
    split; [|split; [reflexivity|]].
    + eapply (wf_rebind s _ f); pool_side Hwf.
    + intros Hlru. pose proof (Hgone (lru_NoDup _ Hlru)).
      eapply (lru_rebind s _ f); pool_side Hwf.
  - destruct (free_list_ s) as [|f rest] eqn:Hfree.
    + (* the free list is empty: ask the replacer *)
      destruct (LRUReplacer.Victim (replacer_ s)) as [[f vec]|] eqn:Hv.
      2:{ injection Hf as <- <-. auto. }
      apply Victim_Some in Hv.
      assert (vec `sublist_of` replacer_ s) as Hsub
          by (rewrite Hv; apply sublist_inserts_r; reflexivity).
      apply bind_Ok in Hf as (p & Hp & Hf). apply page_at_Ok in Hp. simpl in Hp.
      case_bool_decide as Hpin.
      { injection Hf as <- <-. split; [|split; [reflexivity|]].
        - eapply (wf_shrink s); simpl; eauto; apply Hwf.
        - intros Hlru. eapply (lru_shrink s); simpl; eauto. }
      assert (∃ d, (let s0 := set_replacer s vec in
                    let s0 := set_disk s0 d in
                    '(_, pt) ← pt_Remove hash (page_table_ s0) (page_id_ p);
                    FetchPage_install hash (set_page_table s0 pt) f page_id)
                   = Ok (r, s')) as [d Hf'].
      { destruct (is_dirty_ p); eexists; exact Hf. }
      clear Hf. simpl in Hf'.
      apply bind_Ok in Hf' as ([b pt1] & Hrem & Hf').
      apply FetchPage_install_Ok in Hf' as (p1 & pt2 & Hp1 & Hins & -> & ->).
      simpl in *.
      destruct (rebind_frame _ _ _ _ _ _ _ _ (mkPage page_id 1 false)
                  (wf_page_table _ _ _ Hwf) (wf_resident _ _ _ Hwf) Hp Hrem Hins
                  eq_refl) as (Hs2 & Hc2 & Himg).
      assert (f ∉ free_list_ s) as Hnf by (rewrite Hfree; apply not_elem_of_nil).
      split; [|split; [reflexivity|]].
      * eapply (wf_rebind s _ f); pool_side Hwf.
      * intros Hlru. pose proof (victim_not_left _ _ _ (lru_NoDup _ Hlru) Hv).
        eapply (lru_rebind s _ f); pool_side Hwf.
    + (* a frame of the free list *)
      apply FetchPage_install_Ok in Hf as (p & pt' & Hp & Hins & -> & ->).
      simpl in *.
      pose proof (wf_free_NoDup _ _ _ Hwf) as Hnd. rewrite Hfree in Hnd.
      apply NoDup_cons in Hnd as [Hnotin Hnd].
      assert (f ∈ free_list_ s) as Hin by (rewrite Hfree; apply elem_of_cons; auto).
      assert (rest `sublist_of` free_list_ s) as Hrest
          by (rewrite Hfree; apply sublist_cons; reflexivity).
      assert (¬ bound_to hash (page_table_ s) f) as Hnr
          by apply (wf_free _ _ _ Hwf f Hin).
      destruct (carries_Insert hash BUCKET_SIZE _ _ _ _ _ (mkPage page_id 1 false)
                  (wf_page_table _ _ _ Hwf) (wf_resident _ _ _ Hwf) Hnr
                  (lookup_lt_Some _ _ _ Hp) Hins eq_refl) as (Hs' & Hc' & Himg).
      split; [|split; [reflexivity|]].
      * eapply (wf_rebind s _ f); pool_side Hwf.
      * intros Hlru.
        assert (f ∉ replacer_ s) by (intros Hr; exact (lru_not_free _ Hlru f Hr Hin)).
        eapply (lru_rebind s _ f); pool_side Hwf.
Qed.

Lemma Insert_shape_replacer (vec : list nat) (f : nat) :
  ∃ others, LRUReplacer.Insert vec f = f :: others ∧ others `sublist_of` vec ∧
            (NoDup vec → f ∉ others).
Proof. apply (step_shape vec (LRUSpec.CInsert f)). Qed.

Lemma UnpinPage_inv s page_id is_dirty r s' :
  wf s → UnpinPage hash s page_id is_dirty = Ok (r, s') →
  wf s' ∧ pool_size_ s' = pool_size_ s ∧ (lru_ok s → lru_ok s').
Proof.
  intros Hwf. unfold UnpinPage. intros Hu.
  apply bind_Ok in Hu as (found & Hfind & Hu).
  destruct found as [f|]; [|injection Hu as <- <-; auto].
  apply bind_Ok in Hu as (p & Hp & Hu). apply page_at_Ok in Hp.
  case_bool_decide as Hpin; [injection Hu as <- <-; auto|].
  assert (f ∉ free_list_ s) as Hnf
      by (apply resident_not_free; [exact Hwf | eexists; exact Hfind]).
  pose proof (lookup_lt_Some _ _ _ Hp) as Hlt.
  case_bool_decide as Hzero.
  - (* the pin count reaches zero: the frame enters the replacer *)
    apply bind_Ok in Hu as (s1 & Hs1 & Hu). apply set_page_Ok in Hs1 as [_ ->].
    simpl in Hu. injection Hu as <- <-.
    destruct (Insert_shape_replacer (replacer_ s) f) as (others & Hins & Hsub & Hfresh).
    split; [|split; [reflexivity|]].
    + eapply (wf_rebind s _ f); try solve [pool_side Hwf].
      simpl. rewrite Hins. intros f0 Hf0.
      apply elem_of_cons in Hf0 as [->|Hf0]; [auto|].
      left. eapply elem_of_sublist; eassumption.
    + intros [Hnd Hun Hfr]. split; simpl; rewrite Hins.
      * apply NoDup_cons. split; [auto|]. eapply sublist_NoDup; eassumption.
      * intros f0 p0 Hf0 Hp0. apply elem_of_cons in Hf0 as [->|Hf0].
        -- rewrite list_lookup_insert_eq in Hp0 by exact Hlt.
           injection Hp0 as <-. simpl. lia.
        -- rewrite list_lookup_insert_ne in Hp0
             by (intros <-; exact (Hfresh Hnd Hf0)).
           apply (Hun f0 p0 (elem_of_sublist _ _ _ Hf0 Hsub) Hp0).
      * intros f0 Hf0. apply elem_of_cons in Hf0 as [->|Hf0]; [exact Hnf|].
        apply Hfr. eapply elem_of_sublist; eassumption.
  - apply bind_Ok in Hu as (s1 & Hs1 & Hu). apply set_page_Ok in Hs1 as [_ ->].
    simpl in Hu. injection Hu as <- <-. split; [|split; [reflexivity|]].
    + eapply (wf_rebind s _ f); pool_side Hwf.
    + intros Hlru.
      assert (f ∉ replacer_ s)
        by (intros Hin; pose proof (lru_unpinned _ Hlru f p Hin Hp); lia).
      eapply (lru_rebind s _ f); pool_side Hwf.
Qed.

Lemma FlushPage_inv s page_id r s' :
  wf s → FlushPage hash s page_id = Ok (r, s') →
  wf s' ∧ pool_size_ s' = pool_size_ s ∧ (lru_ok s → lru_ok s').
Proof.
  intros Hwf. unfold FlushPage. case_bool_decide; [intros [= <- <-]; auto|].
  intros Hf. apply bind_Ok in Hf as (found & Hfind & Hf).
  destruct found as [f|]; [|injection Hf as <- <-; auto].
  apply bind_Ok in Hf as (p & Hp & Hf). injection Hf as <- <-.
  split; [|split; [reflexivity|]].
  - eapply (wf_shrink s); simpl; eauto; apply Hwf.
  - intros Hlru. eapply (lru_shrink s); simpl; eauto.
Qed.

Lemma DeletePage_inv s page_id r s' :
  wf s → DeletePage hash s page_id = Ok (r, s') →
  wf s' ∧ pool_size_ s' = pool_size_ s ∧
  (¬ releases hash s (CDeletePage page_id) → lru_ok s → lru_ok s').
Proof.
  intros Hwf. unfold DeletePage. intros Hd.
  apply bind_Ok in Hd as (found & Hfind & Hd).
  destruct found as [f|].
  2:{ injection Hd as <- <-. split; [|split; [reflexivity|]].
      - eapply (wf_shrink s); simpl; eauto; apply Hwf.
      - intros _ Hlru. eapply (lru_shrink s); simpl; eauto. }
  apply bind_Ok in Hd as (p & Hp & Hd).
  case_bool_decide as Hpin; [injection Hd as <- <-; auto|].
  pose proof Hp as Hp0. apply page_at_Ok in Hp.
  apply bind_Ok in Hd as ([b pt1] & Hrem & Hd).
  apply bind_Ok in Hd as (s1 & Hs1 & Hd). apply set_page_Ok in Hs1 as [Hlt ->].
  simpl in Hd. injection Hd as <- <-.
  split; [|split; [reflexivity|]].
  2:{ intros Hkeep. exfalso. apply Hkeep. exists f, p. auto. }
  destruct (carries_Remove hash BUCKET_SIZE _ _ _ _ _
              (wf_page_table _ _ _ Hwf) (wf_resident _ _ _ Hwf) Hrem)
    as (Hs1 & Hc1 & Himg & Hgone).
  assert (f ∉ free_list_ s) as Hnf
      by (apply resident_not_free; [exact Hwf | eexists; exact Hfind]).
  specialize (Hgone f p Hp eq_refl).
  split; simpl.
  - exact Hs1.
  - apply NoDup_app. split; [apply Hwf|]. split; [|apply NoDup_singleton].
    intros f0 Hf0 Hf0'. apply list_elem_of_singleton in Hf0'. subst f0. auto.
  - intros f0 Hf0. unfold resident_frame. simpl.
    apply elem_of_app in Hf0 as [Hf0|Hf0].
    + destruct (wf_free _ _ _ Hwf f0 Hf0) as (Hnr & p0 & Hp0' & Hpin0). split.
      * intros Hb. apply Hnr, Himg, Hb.
      * exists p0. split; [|exact Hpin0].
        rewrite list_lookup_insert_ne; [exact Hp0'|]. intros <-. auto.
    + apply list_elem_of_singleton in Hf0. subst f0. split; [exact Hgone|].
      eexists. split; [apply list_lookup_insert_eq, Hlt | reflexivity].
  - intros f0 Hf0. rewrite length_insert. apply (wf_replacer _ _ _ Hwf f0 Hf0).
  - apply carries_unbound; assumption.
  - rewrite length_insert. apply Hwf.
Qed.

Lemma NewPage_inv s r s' :
  wf s → NewPage hash s = Ok (r, s') →
  wf s' ∧ pool_size_ s' = pool_size_ s ∧ (lru_ok s → lru_ok s').
Proof.
  intros Hwf. unfold NewPage.
  destruct (free_list_ s) as [|f rest] eqn:Hfree.
  - destruct (LRUReplacer.Victim (replacer_ s)) as [[f vec]|] eqn:Hv.
    2:{ intros [= <- <-]. auto. }
    apply Victim_Some in Hv.
    assert (vec `sublist_of` replacer_ s) as Hsub
        by (rewrite Hv; apply sublist_inserts_r; reflexivity).
    simpl. intros Hn.
    apply bind_Ok in Hn as (p & Hp & Hn). apply page_at_Ok in Hp. simpl in Hp.
    assert (∃ d, ('(_, pt) ← pt_Remove hash (page_table_ s) (page_id_ p);
                  pt ← pt_Insert hash pt (next_page_id_ (disk_manager_ s)) f;
                  s1 ← set_page (set_page_table (set_disk (set_replacer s vec) d) pt) f
                        (mkPage (next_page_id_ (disk_manager_ s)) 1 false);
                  Ok (Some (f, next_page_id_ (disk_manager_ s)), s1)) = Ok (r, s'))
      as [d Hn'].
    { destruct (is_dirty_ p); eexists; exact Hn. }
    clear Hn.
    apply bind_Ok in Hn' as ([b pt1] & Hrem & Hn').
    apply bind_Ok in Hn' as (pt2 & Hins & Hn').
    apply bind_Ok in Hn' as (s1 & Hs1 & Hn'). apply set_page_Ok in Hs1 as [Hlt ->].
    simpl in *. injection Hn' as <- <-.
    destruct (rebind_frame _ _ _ _ _ _ _ _
                (mkPage (next_page_id_ (disk_manager_ s)) 1 false)
                (wf_page_table _ _ _ Hwf) (wf_resident _ _ _ Hwf) Hp Hrem Hins
                eq_refl) as (Hs2 & Hc2 & Himg).
    assert (f ∉ free_list_ s) as Hnf by (rewrite Hfree; apply not_elem_of_nil).
    split; [|split; [reflexivity|]].
    + eapply (wf_rebind s _ f); pool_side Hwf.
    + intros Hlru. pose proof (victim_not_left _ _ _ (lru_NoDup _ Hlru) Hv).
      eapply (lru_rebind s _ f); pool_side Hwf.
  - simpl. intros Hn.
    apply bind_Ok in Hn as (p & Hp & Hn). apply page_at_Ok in Hp. simpl in Hp.
    assert (∃ d, ('(_, pt) ← pt_Remove hash (page_table_ s) (page_id_ p);
                  pt ← pt_Insert hash pt (next_page_id_ (disk_manager_ s)) f;
                  s1 ← set_page (set_page_table (set_disk (set_free_list s rest) d) pt) f
                        (mkPage (next_page_id_ (disk_manager_ s)) 1 false);
                  Ok (Some (f, next_page_id_ (disk_manager_ s)), s1)) = Ok (r, s'))
      as [d Hn'].
    { destruct (is_dirty_ p); eexists; exact Hn. }
    clear Hn.
    apply bind_Ok in Hn' as ([b pt1] & Hrem & Hn').
    apply bind_Ok in Hn' as (pt2 & Hins & Hn').
    apply bind_Ok in Hn' as (s1 & Hs1 & Hn'). apply set_page_Ok in Hs1 as [Hlt ->].
    simpl in *. injection Hn' as <- <-.
    destruct (rebind_frame _ _ _ _ _ _ _ _
                (mkPage (next_page_id_ (disk_manager_ s)) 1 false)
                (wf_page_table _ _ _ Hwf) (wf_resident _ _ _ Hwf) Hp Hrem Hins
                eq_refl) as (Hs2 & Hc2 & Himg).
    pose proof (wf_free_NoDup _ _ _ Hwf) as Hnd. rewrite Hfree in Hnd.
    apply NoDup_cons in Hnd as [Hnotin Hnd].
    assert (f ∈ free_list_ s) as Hin by (rewrite Hfree; apply elem_of_cons; auto).
    assert (rest `sublist_of` free_list_ s) as Hrest
        by (rewrite Hfree; apply sublist_cons; reflexivity).
    split; [|split; [reflexivity|]].
    + eapply (wf_rebind s _ f); pool_side Hwf.
    + intros Hlru.
      assert (f ∉ replacer_ s) by (intros Hr; exact (lru_not_free _ Hlru f Hr Hin)).
      eapply (lru_rebind s _ f); pool_side Hwf.
Qed.

Lemma step_inv s c s' :
  wf s → step hash s c = Ok s' →
  wf s' ∧ pool_size_ s' = pool_size_ s ∧
  (¬ releases hash s c → lru_ok s → lru_ok s').
Proof.
  intros Hwf Hstep. destruct c as [page_id| |page_id d|page_id|page_id]; simpl in Hstep;
    apply fmap_Ok in Hstep as ([r s1] & Hop & ->); simpl.
  - destruct (FetchPage_inv _ _ _ _ Hwf Hop) as (? & ? & ?); auto.
  - destruct (NewPage_inv _ _ _ Hwf Hop) as (? & ? & ?); auto.
  - destruct (UnpinPage_inv _ _ _ _ _ Hwf Hop) as (? & ? & ?); auto.
  - destruct (FlushPage_inv _ _ _ _ Hwf Hop) as (? & ? & ?); auto.
  - apply (DeletePage_inv _ _ _ _ Hwf Hop).
Qed.

Lemma reachable_wf pool_size s :
  reachable hash BUCKET_SIZE pool_size s → wf s ∧ pool_size_ s = pool_size.
Proof.
  induction 1 as [d|s c s' _ [IH Hsz] Hstep].
  - split; [apply create_wf | reflexivity].
  - destruct (step_inv _ _ _ IH Hstep) as (Hwf' & Hps & _). split; [exact Hwf'|].
    rewrite Hps. exact Hsz.
Qed.

Lemma reachable_keeping_inv pool_size s :
  reachable_keeping hash BUCKET_SIZE pool_size s → wf s ∧ lru_ok s.
Proof.
  induction 1 as [d|s c s' _ [IHw IHl] Hkeep Hstep].
  - split; [apply create_wf|]. split; simpl.
    + constructor.
    + intros f p Hf. apply elem_of_nil in Hf as [].
    + intros f Hf. apply elem_of_nil in Hf as [].
  - destruct (step_inv _ _ _ IHw Hstep) as (Hwf' & _ & Hlru). auto.
Qed.


(** *** Pin counts *)











End pool_invariants.

Section pool_claims.
Context (hash : Z → Z) (BUCKET_SIZE : nat).
Import BufferPoolManager PoolSpec.

Implicit Types (s : BufferPoolManager.t) (f : nat) (p : Page) (page_id : Z).

Lemma run_reachable pool_size s cs s' :
  reachable hash BUCKET_SIZE pool_size s → run hash s cs = Ok s' →
  reachable hash BUCKET_SIZE pool_size s'.
Proof.
  revert s. induction cs as [|c cs IH]; intros s Hr; simpl.
  - intros [= <-]. exact Hr.
  - intros Hrun. apply bind_Ok in Hrun as (s1 & Hstep & Hrun).
    apply (IH s1); [|exact Hrun]. eapply reach_step; eassumption.
Qed.

(** C1, as the code has it.  In every state reached by calls none of
    which is a [DeletePage] that releases a frame: a pinned frame is not
    in the replacer, and a frame on the free list is neither bound in the
    page table nor in the replacer. *)
Theorem pinned_and_free_frames_without_release pool_size s f :
  reachable_keeping hash BUCKET_SIZE pool_size s →
  (pinned s f → f ∉ replacer_ s) ∧
  ¬ (f ∈ free_list_ s ∧ resident_frame hash s f) ∧
  ¬ (f ∈ free_list_ s ∧ f ∈ replacer_ s).
Proof.
  intros Hr. apply reachable_keeping_inv in Hr as [Hwf Hlru].
  split; [|split].
  - intros (p & Hp & Hpin) Hin.
    pose proof (lru_unpinned _ Hlru f p Hin Hp). lia.
  - intros [Hfree Hres]. destruct (wf_free _ _ _ Hwf f Hfree) as [Hnr _]. auto.
  - intros [Hfree Hin]. exact (lru_not_free _ Hlru f Hin Hfree).
Qed.

(** C6, as the code has it.  [UnpinPage(pid, d)] on a resident page with
    a positive pin count returns [true], lowers the pin count by one and
    stores [d] as the dirty flag, whatever the flag was. *)
Theorem UnpinPage_stores_dirty s page_id d f p :
  pt_Find hash (page_table_ s) page_id = Ok (Some f) →
  page_at s f = Ok p →
  (pin_count_ p > 0)%Z →
  ∃ s', UnpinPage hash s page_id d = Ok (true, s') ∧
        page_at s' f = Ok {| page_id_ := page_id_ p;
                             pin_count_ := (pin_count_ p - 1)%Z;
                             is_dirty_ := d |}.
Proof.
  intros Hfind Hp Hpin. unfold UnpinPage. rewrite Hfind. simpl. rewrite Hp. simpl.
  rewrite bool_decide_eq_false_2 by lia.
  apply page_at_Ok in Hp. pose proof (lookup_lt_Some _ _ _ Hp) as Hlt.
  assert (∀ s0, pages_ s0 = pages_ s →
            ∃ s', (s1 ← set_page s0 f
                     {| page_id_ := page_id_ p; pin_count_ := (pin_count_ p - 1)%Z;
                        is_dirty_ := d |}; Ok (true, s1)) = Ok (true, s') ∧
                  page_at s' f = Ok {| page_id_ := page_id_ p;
                                       pin_count_ := (pin_count_ p - 1)%Z;
                                       is_dirty_ := d |}) as Hset.
  { intros s0 Hs0. unfold set_page. rewrite vec_set_nat by (rewrite Hs0; exact Hlt).
    simpl. eexists. split; [reflexivity|]. apply page_at_Ok. simpl.
    apply list_lookup_insert_eq. rewrite Hs0. exact Hlt. }
  case_bool_decide; apply Hset; reflexivity.
Qed.


End pool_claims.

(** A pool of one frame, after [NewPage] has bound page 0 to it. *)
Lemma pinned_and_free_frames_without_release_witness :
  let s := {| BufferPoolManager.pool_size_ := 1;
              BufferPoolManager.pages_ := [BufferPoolManager.mkPage 0 1 false];
              BufferPoolManager.page_table_ :=
                HashSpec.with_bucket (ExtendibleHash.create 50) 0 {[ 0%Z := 0 ]};
              BufferPoolManager.replacer_ := [];
              BufferPoolManager.free_list_ := [];
              BufferPoolManager.disk_manager_ :=
                BufferPoolManager.mkDisk 1 [BufferPoolManager.AllocatePage] |} in
  (PoolSpec.pinned s 0 → 0 ∉ BufferPoolManager.replacer_ s) ∧
  ¬ (0 ∈ BufferPoolManager.free_list_ s ∧ PoolSpec.resident_frame std_hash s 0) ∧
  ¬ (0 ∈ BufferPoolManager.free_list_ s ∧ 0 ∈ BufferPoolManager.replacer_ s).
Proof.
  apply (pinned_and_free_frames_without_release std_hash 50 1).
  eapply PoolSpec.keep_step with (c := BufferPoolManager.CNewPage).
  - apply (PoolSpec.keep_create std_hash 50 1 (BufferPoolManager.mkDisk 0 [])).
  - simpl. tauto.
  - vm_compute. reflexivity.
Defined.

(** C1 as stated fails: after [NewPage] and [UnpinPage] the frame is bound
    in the page table and is in the replacer. *)
Lemma resident_unpinned_frame_in_replacer :
  ¬ PoolSpec.frames_on_one_list std_hash 50 1.
Proof.
  intros Hclaim.
  destruct (BufferPoolManager.run std_hash
              (BufferPoolManager.create 50 1 (BufferPoolManager.mkDisk 0 []))
              [BufferPoolManager.CNewPage; BufferPoolManager.CUnpinPage 0 false])
    as [s|e] eqn:Hrun; [|vm_compute in Hrun; discriminate].
  assert (PoolSpec.reachable std_hash 50 1 s) as Hreach.
  { eapply run_reachable; [apply PoolSpec.reach_create | exact Hrun]. }
  destruct (Hclaim s 0 Hreach) as (_ & _ & _ & Hboth). apply Hboth.
  vm_compute in Hrun. injection Hrun as <-. split.
  - exists 0%Z. vm_compute. reflexivity.
  - simpl. apply list_elem_of_here.
Qed.

(** [DeletePage] puts the frame of a resident unpinned page on the free
    list and leaves it in the replacer; the [NewPage] that reuses the frame
    pins it there. *)
Lemma DeletePage_leaves_frame_in_replacer :
  (λ s, (BufferPoolManager.pages_ s, BufferPoolManager.replacer_ s)) <$>
    BufferPoolManager.run std_hash
      (BufferPoolManager.create 50 1 (BufferPoolManager.mkDisk 0 []))
      [BufferPoolManager.CNewPage; BufferPoolManager.CUnpinPage 0 false;
       BufferPoolManager.CDeletePage 0; BufferPoolManager.CNewPage]
  = Ok ([BufferPoolManager.mkPage 1 1 false], [0]).
Proof. vm_compute. reflexivity. Qed.

(** A pool of one frame holding page 0, dirty, with pin count 1. *)
Lemma UnpinPage_stores_dirty_witness :
  let s := {| BufferPoolManager.pool_size_ := 1;
              BufferPoolManager.pages_ := [BufferPoolManager.mkPage 0 1 true];
              BufferPoolManager.page_table_ :=
                HashSpec.with_bucket (ExtendibleHash.create 50) 0 {[ 0%Z := 0 ]};
              BufferPoolManager.replacer_ := [];
              BufferPoolManager.free_list_ := [];
              BufferPoolManager.disk_manager_ := BufferPoolManager.mkDisk 1 [] |} in
  ∃ s', BufferPoolManager.UnpinPage std_hash s 0 false = Ok (true, s') ∧
        BufferPoolManager.page_at s' 0 = Ok (BufferPoolManager.mkPage 0 (1 - 1) false).
Proof.
  apply (UnpinPage_stores_dirty std_hash _ 0%Z false 0 (BufferPoolManager.mkPage 0 1 true)).
  - vm_compute. reflexivity.
  - reflexivity.
  - simpl. lia.
Defined.

(** C6 as stated fails: page 0 is dirty with pin count 1, and
    [UnpinPage(0, false)] leaves it clean. *)
Lemma UnpinPage_clears_dirty :
  ¬ PoolSpec.Unpin_ORs_dirty std_hash 50 1.
Proof.
  intros Hclaim.
  destruct (BufferPoolManager.run std_hash
              (BufferPoolManager.create 50 1 (BufferPoolManager.mkDisk 0 []))
              [BufferPoolManager.CNewPage; BufferPoolManager.CFetchPage 0;
               BufferPoolManager.CUnpinPage 0 true])
    as [s|e] eqn:Hrun; [|vm_compute in Hrun; discriminate].
  assert (PoolSpec.reachable std_hash 50 1 s) as Hreach.
  { eapply run_reachable; [apply PoolSpec.reach_create | exact Hrun]. }
  vm_compute in Hrun. injection Hrun as <-.
  match type of Hreach with
  | PoolSpec.reachable _ _ _ ?s0 =>
      assert (∃ s', BufferPoolManager.UnpinPage std_hash s0 0%Z false = Ok (true, s') ∧
                    BufferPoolManager.page_at s' 0
                    = Ok (BufferPoolManager.mkPage 0 0 false)) as (s' & Hun & Hp')
        by (eexists; split; vm_compute; reflexivity);
      pose proof (Hclaim s0 0%Z false 0 (BufferPoolManager.mkPage 0 1 true) s'
                    (BufferPoolManager.mkPage 0 0 false) Hreach) as Hc
  end.
  assert (false = true) as Habs; [|discriminate Habs].
  apply Hc; [vm_compute; reflexivity | reflexivity | simpl; lia | exact Hun | exact Hp'].
Qed.



(** The trace of the counterexample: the first [FetchPage(99)] returns no
    frame and takes frame 0 out of the replacer, the second returns
    frame 1. *)
Lemma FetchPage_absent_then_present :
  (s ← BufferPoolManager.run std_hash
         (BufferPoolManager.create 50 2 (BufferPoolManager.mkDisk 0 []))
         [BufferPoolManager.CNewPage; BufferPoolManager.CNewPage;
          BufferPoolManager.CUnpinPage 0 false; BufferPoolManager.CUnpinPage 1 false;
          BufferPoolManager.CDeletePage 0; BufferPoolManager.CNewPage];
   '(r1, s1) ← BufferPoolManager.FetchPage std_hash s 99;
   '(r2, s2) ← BufferPoolManager.FetchPage std_hash s1 99;
   Ok (BufferPoolManager.pages_ s, BufferPoolManager.replacer_ s, r1, r2))
  = Ok ([BufferPoolManager.mkPage 2 1 false; BufferPoolManager.mkPage 1 0 false],
        [1; 0], None, Some 1).
Proof. vm_compute. reflexivity. Qed.

(** ** Lock manager *)

Section lock_facts.
Context `{Countable RID} (oldest0 : Z).
Import LockManager.

Implicit Types (lm : LockManager.t (RID := RID)) (txn : Transaction (RID := RID))
  (rid : RID) (w : Waiting).

(** C2.  With strict two-phase locking on, [Unlock] by a transaction that
    holds the lock sets the transaction to [ABORTED] and returns [false]
    without touching the lock table, whatever state the transaction is
    in: also when it is [COMMITTED] or [ABORTED]. *)
Theorem Unlock_strict_aborts_in_every_state lm txn rid :
  strict_2PL_ lm = true →
  rid ∈ shared_lock_set_ txn ∨ rid ∈ exclusive_lock_set_ txn →
  Unlock oldest0 lm txn rid = Ok (false, lm, SetState txn ABORTED).
Proof.
  intros Hstrict Hheld. unfold Unlock.
  assert (bool_decide (rid ∈ shared_lock_set_ txn) ||
          bool_decide (rid ∈ exclusive_lock_set_ txn) = true) as ->.
  { apply orb_true_iff. destruct Hheld; [left | right]; apply bool_decide_eq_true_2; auto. }
  simpl. rewrite Hstrict. simpl.
  destruct (state_ txn); reflexivity.
Qed.

(** What [LockShared] does, up to its wait, on an entry that exists: it
    aborts the transaction exactly when the entry counts a granted
    exclusive request and the transaction is younger than [oldest];
    otherwise it appends the request and stores the transaction's id in
    [oldest]. *)
Lemma LockShared_enqueue_existing lm txn rid w :
  lock_table_ lm !! rid = Some w →
  state_ txn = GROWING →
  rid ∉ shared_lock_set_ txn →
  LockShared_enqueue oldest0 lm txn rid =
  if bool_decide (exclusive_cnt w ≠ 0%Z ∧ (txn_id_ txn > oldest w)%Z)
  then Ok (false, lm, SetState txn ABORTED)
  else Ok (true,
           set_entry lm rid
             {| oldest := txn_id_ txn; exclusive_cnt := exclusive_cnt w;
                req_list := req_list w ++
                  [{| txn_id := txn_id_ txn; lock_mode := SHARED; granted := false |}] |},
           txn).
Proof.
  intros Hw Hst Hnot. unfold LockShared_enqueue. rewrite Hst. simpl.
  rewrite bool_decide_eq_true_2 by exact Hnot. simpl. rewrite Hw.
  destruct (bool_decide (exclusive_cnt w ≠ 0%Z)) eqn:E1,
           (bool_decide (txn_id_ txn > oldest w)%Z) eqn:E2; simpl.
  - rewrite bool_decide_eq_true_2; [reflexivity|].
    apply bool_decide_eq_true in E1, E2. auto.
  - rewrite bool_decide_eq_false_2; [reflexivity|].
    apply bool_decide_eq_false in E2. tauto.
  - rewrite bool_decide_eq_false_2; [reflexivity|].
    apply bool_decide_eq_false in E1. tauto.
  - rewrite bool_decide_eq_false_2; [reflexivity|].
    apply bool_decide_eq_false in E1. tauto.
Qed.
End lock_facts.

(** A committed transaction that holds a shared lock on record 7. *)
Lemma Unlock_strict_aborts_in_every_state_witness :
  let lm := {| LockManager.lock_table_ :=
                 {[ 7%Z := LockManager.mkWaiting 1 0
                             [LockManager.mkRequest 1 LockManager.SHARED true] ]};
               LockManager.strict_2PL_ := true |} in
  let txn := LockManager.mkTransaction LockManager.COMMITTED 1 {[ 7%Z ]} ∅ in
  LockManager.Unlock (-1) lm txn 7%Z
  = Ok (false, lm, LockManager.SetState txn LockManager.ABORTED).
Proof.
  intros lm txn.
  apply (Unlock_strict_aborts_in_every_state (-1) lm txn 7%Z).
  - reflexivity.
  - left. apply elem_of_singleton. reflexivity.
Defined.

(** C5.  Transaction 1 takes a shared lock on record 7, then transaction 2
    asks for one: the entry then lists the requests of transactions 1 and
    2, and its [oldest] is 2. *)
Theorem LockShared_raises_oldest :
  ('(_, lm, _) ← LockManager.LockShared (-1) (LockManager.create false)
                   (LockManager.begin_txn 1) 7%Z;
   '(_, lm, _) ← LockManager.LockShared (-1) lm (LockManager.begin_txn 2) 7%Z;
   Ok (LockManager.lock_table_ lm !! 7%Z))
  = Ok (Some (LockManager.mkWaiting 2 0
                [LockManager.mkRequest 1 LockManager.SHARED true;
                 LockManager.mkRequest 2 LockManager.SHARED false])).
Proof. vm_compute. reflexivity. Qed.

(** C7.  Transaction 5 holds a shared lock on record 7 and transaction 3
    waits for an exclusive one, so [oldest] is 3.  [LockShared] by
    transaction 4 does not abort it: the request is appended behind the
    exclusive waiter, the caller blocks, and transaction 4 stays
    [GROWING]. *)
Theorem LockShared_ignores_exclusive_waiter :
  ('(_, lm, _) ← LockManager.LockShared (-1) (LockManager.create false)
                   (LockManager.begin_txn 5) 7%Z;
   '(_, lm, _) ← LockManager.LockExclusive (-1) lm (LockManager.begin_txn 3) 7%Z;
   '(out, lm, txn) ← LockManager.LockShared (-1) lm (LockManager.begin_txn 4) 7%Z;
   Ok (out, LockManager.state_ txn, LockManager.lock_table_ lm !! 7%Z))
  = Ok (LockManager.Blocked, LockManager.GROWING,
        Some (LockManager.mkWaiting 4 0
                [LockManager.mkRequest 5 LockManager.SHARED true;
                 LockManager.mkRequest 3 LockManager.EXCLUSIVE false;
                 LockManager.mkRequest 4 LockManager.SHARED false])).
Proof. vm_compute. reflexivity. Qed.

(** * Further properties *)

(** ** Extendible hash table *)

Section hash_more.
Context `{Countable K} {V : Type}.
Context (hash : K → Z) (key_le : K → K → Prop) `{!RelDecision key_le}.
Import ExtendibleHash HashSpec.

Implicit Types (h : ExtendibleHash.t K V) (key : K) (value : V).

(** X1.  On a table built by [Insert] and [Remove] calls, an [Insert] that
    returns and a [Remove] change what [Find] gives for no other key. *)
Theorem Insert_Remove_leave_other_keys cap h key key' :
  reachable hash key_le cap h → key' ≠ key →
  (∀ value h', Insert hash key_le h key value = Ok h' →
               Find hash h' key' = Find hash h key') ∧
  (∀ b h', Remove hash h key = Ok (b, h') → Find hash h' key' = Find hash h key').
Proof.
  intros Hr Hne. apply reachable_shape in Hr. split.
  - intros value h' Hi. apply (Find_Insert_other _ _ _ _ _ _ _ _ Hr Hi Hne).
  - intros b h' Hrem. apply (Find_Remove_other _ _ _ _ _ _ _ Hr Hrem Hne).
Qed.

(** X2.  On a table built by [Insert] and [Remove] calls, [Remove(k)]
    returns, and its result is [true] exactly when [Find(k)] finds a
    binding. *)
Theorem Remove_returns_whether_bound cap h key :
  reachable hash key_le cap h →
  ∃ old h', Find hash h key = Ok old ∧
            Remove hash h key = Ok (bool_decide (is_Some old), h').
Proof.
  intros Hr. apply reachable_shape in Hr.
  rewrite (Find_shape _ _ _ _ Hr), (Remove_shape _ _ _ _ Hr). eauto.
Qed.


Lemma bucket_of_elem cap h key :
  shape cap h → bucket_of hash h key ∈ buckets h.
Proof.
  intros Hs. pose proof (shape_bucket_get hash _ _ key Hs) as Hg.
  apply vec_get_Ok in Hg as [_ Hg]. eapply list_elem_of_lookup_2, Hg.
Qed.

Lemma with_bucket_elem h i b b' :
  b' ∈ buckets (with_bucket h i b) → b' = b ∨ b' ∈ buckets h.
Proof.
  simpl. intros Hin. apply list_elem_of_lookup_1 in Hin as [j Hj].
  apply list_lookup_insert_Some in Hj as [(_ & -> & _)|[_ Hj]]; [auto|].
  right. eapply list_elem_of_lookup_2, Hj.
Qed.

(** X4.  In a table built by [Insert] and [Remove] calls no bucket holds
    more than [bucketSize] entries. *)
Theorem buckets_within_capacity cap h b :
  reachable hash key_le cap h → b ∈ buckets h → size b ≤ cap.
Proof.
  intros Hr. revert b.
  induction Hr as [|h key value h' Hr IH Hi|h key r h' Hr IH Hrem]; intros b Hb.
  - simpl in Hb. apply elem_of_cons in Hb as [->|Hb].
    { rewrite map_size_empty. lia. }
    apply elem_of_cons in Hb as [->|Hb].
    { rewrite map_size_empty. lia. }
    apply elem_of_nil in Hb as [].
  - pose proof (reachable_shape _ _ _ _ Hr) as Hs.
    destruct (Insert_Ok_shape _ _ _ _ _ _ _ Hs Hi) as (Hroom & -> & _).
    rewrite (shape_bucketSize _ _ Hs) in Hroom.
    apply with_bucket_elem in Hb as [->|Hb]; [|auto].
    pose proof (IH _ (bucket_of_elem _ _ key Hs)) as Hle.
    unfold map_insert. destruct (bucket_of hash h key !! key) eqn:E; [exact Hle|].
    rewrite map_size_insert_None by exact E. lia.
  - pose proof (reachable_shape _ _ _ _ Hr) as Hs.
    rewrite (Remove_shape _ _ _ _ Hs) in Hrem. injection Hrem as _ <-.
    apply with_bucket_elem in Hb as [->|Hb]; [|auto].
    pose proof (IH _ (bucket_of_elem _ _ key Hs)) as Hle.
    rewrite map_size_delete.
    destruct (bucket_of hash h key !! key); simpl; lia.
Qed.

(** X5.  On any table, a [Split] that returns has appended exactly one
    bucket and has left the length of [J] alone; it can return only if [J]
    was already longer than [buckets]. *)
Theorem Split_returns_only_with_room h dirIndex h' :
  Split hash key_le h dirIndex = Ok h' →
  length (buckets h') = S (length (buckets h)) ∧
  length (J h') = length (J h) ∧
  length (buckets h) < length (J h).
Proof.
  intros Hs. apply Split_lengths in Hs as (HJ & Hb & Hle). lia.
Qed.

(** X6.  A new table binds no key: [Find] reports absence and [Remove]
    returns [false], for every key and every hash function. *)
Theorem create_binds_nothing cap key :
  Find hash (create (V := V) cap) key = Ok None ∧
  ∃ h', Remove hash (create (V := V) cap) key = Ok (false, h').
Proof.
  pose proof (create_shape (K := K) (V := V) cap) as Hs.
  assert (bucket_of hash (create (V := V) cap) key = ∅) as Hb.
  { unfold bucket_of. simpl. destruct (slot_cases hash key) as [-> | ->]; reflexivity. }
  rewrite (Find_shape _ _ _ _ Hs), (Remove_shape _ _ _ _ Hs), Hb, lookup_empty.
  split; [reflexivity|]. eexists. reflexivity.
Qed.

Lemma with_bucket_twice cap h key b :
  shape cap h →
  with_bucket (with_bucket h (slot hash key) b) (slot hash key) (bucket_of hash h key) = h.
Proof.
  intros Hs. pose proof (shape_bucket_get hash _ _ key Hs) as Hg.
  apply vec_get_Ok in Hg as [_ Hg].
  destruct h as [dir ds i bsz j bs]. unfold with_bucket. simpl in *. f_equal.
  rewrite list_insert_insert_eq. apply list_insert_id, Hg.
Qed.

(** X7.  On a table built by [Insert] and [Remove] calls, inserting an
    unbound key and removing it again gives back the table as it was, and
    the [Remove] returns [true]. *)
Theorem Insert_Remove_round_trip cap h key value h' :
  reachable hash key_le cap h →
  Find hash h key = Ok None →
  Insert hash key_le h key value = Ok h' →
  Remove hash h' key = Ok (true, h).
Proof.
  intros Hr Hfind Hi. apply reachable_shape in Hr.
  rewrite (Find_shape _ _ _ _ Hr) in Hfind. injection Hfind as Hnone.
  destruct (Insert_Ok_shape _ _ _ _ _ _ _ Hr Hi) as (_ & -> & Hs').
  rewrite (Remove_shape _ _ _ _ Hs'), (bucket_of_with_bucket _ _ _ _ _ _ Hr).
  rewrite (bool_decide_eq_true_2 (slot hash key = slot hash key)) by reflexivity.
  unfold map_insert. rewrite Hnone, lookup_insert_eq.
  rewrite (bool_decide_eq_true_2 (is_Some (Some value))) by eauto.
  rewrite delete_insert_id by exact Hnone.
  rewrite (with_bucket_twice _ _ _ _ Hr). reflexivity.
Qed.
End hash_more.

Lemma Insert_Remove_leave_other_keys_witness :
  let h := HashSpec.with_bucket (ExtendibleHash.create 2) 0 {[ 0%Z := 10%Z ]} in
  (∀ value h', ExtendibleHash.Insert std_hash Z.le h 0%Z value = Ok h' →
               ExtendibleHash.Find std_hash h' 1%Z = ExtendibleHash.Find std_hash h 1%Z) ∧
  (∀ b h', ExtendibleHash.Remove std_hash h 0%Z = Ok (b, h') →
           ExtendibleHash.Find std_hash h' 1%Z = ExtendibleHash.Find std_hash h 1%Z).
Proof.
  intros h. apply (Insert_Remove_leave_other_keys std_hash Z.le 2 h 0%Z 1%Z).
  - eapply HashSpec.reach_Insert with (key := 0%Z) (value := 10%Z).
    + apply HashSpec.reach_create.
    + vm_compute. reflexivity.
  - lia.
Defined.

Lemma Remove_returns_whether_bound_witness :
  let h := HashSpec.with_bucket (ExtendibleHash.create 2) 0 {[ 0%Z := 10%Z ]} in
  ∃ old h', ExtendibleHash.Find std_hash h 0%Z = Ok old ∧
            ExtendibleHash.Remove std_hash h 0%Z = Ok (bool_decide (is_Some old), h').
Proof.
  intros h. apply (Remove_returns_whether_bound std_hash Z.le 2 h 0%Z).
  eapply HashSpec.reach_Insert with (key := 0%Z) (value := 10%Z).
  - apply HashSpec.reach_create.
  - vm_compute. reflexivity.
Defined.


Lemma buckets_within_capacity_witness :
  size ({[ 0%Z := 10%Z ]} : gmap Z Z) ≤ 2.
Proof.
  apply (buckets_within_capacity std_hash Z.le 2
           (HashSpec.with_bucket (ExtendibleHash.create 2) 0 {[ 0%Z := 10%Z ]})).
  - eapply HashSpec.reach_Insert with (key := 0%Z) (value := 10%Z).
    + apply HashSpec.reach_create.
    + vm_compute. reflexivity.
  - simpl. apply list_elem_of_here.
Defined.

(** A table whose [J] has room for a third bucket. *)
Lemma Split_returns_only_with_room_witness :
  let h := {| ExtendibleHash.Dir := [0; 1]%Z; ExtendibleHash.dirSize := 2;
              ExtendibleHash.I := 1; ExtendibleHash.bucketSize := 1;
              ExtendibleHash.J := [1; 1; 0]%Z;
              ExtendibleHash.buckets := [{[ 0%Z := 10%Z ]}; ∅] |} in
  let h' := {| ExtendibleHash.Dir := [0; 1; 2; 1]%Z; ExtendibleHash.dirSize := 4;
               ExtendibleHash.I := 2; ExtendibleHash.bucketSize := 1;
               ExtendibleHash.J := [2; 1; 2]%Z;
               ExtendibleHash.buckets := [{[ 0%Z := 10%Z ]}; ∅; ∅] |} in
  length (ExtendibleHash.buckets h') = S (length (ExtendibleHash.buckets h)) ∧
  length (ExtendibleHash.J h') = length (ExtendibleHash.J h) ∧
  length (ExtendibleHash.buckets h) < length (ExtendibleHash.J h).
Proof.
  intros h h'. apply (Split_returns_only_with_room std_hash Z.le h 0%Z h').
  vm_compute. reflexivity.
Defined.

Lemma Insert_Remove_round_trip_witness :
  ExtendibleHash.Remove std_hash
    (HashSpec.with_bucket (ExtendibleHash.create 2) 0 {[ 0%Z := 10%Z ]}) 0%Z
  = Ok (true, ExtendibleHash.create (K := Z) (V := Z) 2).
Proof.
  apply (Insert_Remove_round_trip std_hash Z.le 2 (ExtendibleHash.create 2) 0%Z 10%Z).
  - apply HashSpec.reach_create.
  - vm_compute. reflexivity.
  - vm_compute. reflexivity.
Defined.

(** ** LRU replacer *)

Section lru_more.
Context `{EqDecision T}.
Import LRUReplacer LRUSpec.

Implicit Types (vec : list T) (x y : T) (history : list (call (T := T))).

(** X8.  After any history of [Insert], [Victim] and [Erase] calls the
    replacer holds no element twice, and holds only elements that were
    inserted. *)
Theorem replacer_holds_each_element_once history :
  NoDup (replay history) ∧
  (∀ x, x ∈ replay history → 0 < last_Insert history x).
Proof.
  destruct (replay_ordered history) as (Hnd & Hin & _). auto.
Qed.

Lemma erase_first_filter x vec :
  NoDup vec →
  default vec (erase_first x vec) = filter (λ y, y ≠ x) vec.
Proof.
  induction vec as [|z vec IH]; intros Hnd; [reflexivity|].
  apply NoDup_cons in Hnd as [Hz Hnd]. simpl. case_decide as E.
  - subst z. simpl. rewrite filter_cons_False by (intros Hne; apply Hne; reflexivity).
    clear IH. induction vec as [|w vec IH]; [reflexivity|].
    apply not_elem_of_cons in Hz as [Hne Hz]. apply NoDup_cons in Hnd as [_ Hnd].
    rewrite filter_cons_True by congruence. f_equal. auto.
  - rewrite filter_cons_True by exact E. specialize (IH Hnd).
    destruct (erase_first x vec) as [vec'|]; simpl in *; f_equal; exact IH.
Qed.

(** X9.  [Insert] on a replacer without duplicates puts the element in
    front of the other elements, which keep their order; the size grows by
    one exactly when the element was not there. *)
Theorem Insert_moves_to_front vec x :
  NoDup vec →
  Insert vec x = x :: filter (λ y, y ≠ x) vec ∧
  NoDup (Insert vec x) ∧
  Size (Insert vec x) = (if decide (x ∈ vec) then Size vec else S (Size vec)).
Proof.
  intros Hnd. unfold Insert. rewrite (erase_first_filter x vec Hnd).
  split; [reflexivity|]. split.
  - apply NoDup_cons. split.
    + intros Hin. apply list_elem_of_filter in Hin as [Hne _]. apply Hne. reflexivity.
    + apply NoDup_filter, Hnd.
  - unfold Size. simpl. rewrite <- (erase_first_filter x vec Hnd).
    destruct (erase_first x vec) as [vec'|] eqn:E; simpl.
    + rewrite decide_True.
      2:{ destruct (decide (x ∈ vec)) as [|Hn]; [assumption|].
          apply erase_first_None in Hn. congruence. }
      clear Hnd. revert vec' E. induction vec as [|z vec IH]; intros vec' E;
        simpl in E; [discriminate|].
      case_decide.
      * injection E as <-. reflexivity.
      * apply fmap_Some in E as (l & Hl & ->). simpl. f_equal. apply IH, Hl.
    + rewrite decide_False; [reflexivity|]. apply erase_first_None, E.
Qed.

(** X10.  [Erase] on a replacer without duplicates returns whether the
    element was there and leaves the other elements in their order. *)
Theorem Erase_removes_the_element vec x :
  NoDup vec →
  Erase vec x = (bool_decide (x ∈ vec), filter (λ y, y ≠ x) vec).
Proof.
  intros Hnd. unfold Erase. rewrite <- (erase_first_filter x vec Hnd).
  destruct (erase_first x vec) as [vec'|] eqn:E; simpl.
  - rewrite bool_decide_eq_true_2; [reflexivity|].
    destruct (decide (x ∈ vec)) as [|Hn]; [assumption|].
    apply erase_first_None in Hn. congruence.
  - rewrite bool_decide_eq_false_2; [reflexivity|]. apply erase_first_None, E.
Qed.

Lemma Insert_distinct_reverse (l : list T) :
  NoDup l → foldl Insert [] l = reverse l.
Proof.
  induction l as [|y l IH] using rev_ind; intros Hnd; [reflexivity|].
  apply NoDup_app in Hnd as (Hnd & Hdisj & _).
  rewrite foldl_snoc, reverse_snoc, (IH Hnd). unfold Insert.
  assert (y ∉ reverse l) as Hy.
  { rewrite elem_of_reverse. intros Hin. apply (Hdisj y Hin).
    apply list_elem_of_singleton. reflexivity. }
  apply erase_first_None in Hy. rewrite Hy. reflexivity.
Qed.

(** X11.  Elements inserted once each into a new replacer come out of
    [Victim] in the order they went in: the first [Victim] returns the
    first element inserted and leaves the replacer as if only the others
    had been inserted. *)
Theorem Victim_first_in_first_out x (l : list T) :
  NoDup (x :: l) →
  Victim (foldl Insert [] (x :: l)) = Some (x, foldl Insert [] l).
Proof.
  intros Hnd. rewrite (Insert_distinct_reverse _ Hnd).
  apply NoDup_cons in Hnd as [_ Hnd]. rewrite (Insert_distinct_reverse _ Hnd).
  rewrite reverse_cons. apply Victim_snoc.
Qed.

(** X12.  Erasing an element right after inserting it into a replacer that
    did not hold it returns [true] and gives back the replacer as it was;
    erasing an element the replacer does not hold returns [false] and
    changes nothing. *)
Theorem Insert_Erase_round_trip vec x :
  x ∉ vec →
  Erase (Insert vec x) x = (true, vec) ∧ Erase vec x = (false, vec).
Proof.
  intros Hx. apply erase_first_None in Hx. unfold Erase, Insert. rewrite Hx. simpl.
  rewrite decide_True by reflexivity. auto.
Qed.
End lru_more.

Lemma replacer_holds_each_element_once_witness :
  let history := [LRUSpec.CInsert 1; LRUSpec.CErase 2; LRUSpec.CInsert 2;
                  LRUSpec.CInsert 1] in
  NoDup (LRUSpec.replay history) ∧
  (∀ x, x ∈ LRUSpec.replay history → 0 < LRUSpec.last_Insert history x).
Proof. intros history. apply (replacer_holds_each_element_once history). Defined.

Lemma Insert_moves_to_front_witness :
  LRUReplacer.Insert [3; 1; 2] 1 = 1 :: filter (λ y, y ≠ 1) [3; 1; 2] ∧
  NoDup (LRUReplacer.Insert [3; 1; 2] 1) ∧
  LRUReplacer.Size (LRUReplacer.Insert [3; 1; 2] 1)
  = (if decide (1 ∈ [3; 1; 2]) then LRUReplacer.Size [3; 1; 2]
     else S (LRUReplacer.Size [3; 1; 2])).
Proof.
  apply (Insert_moves_to_front [3; 1; 2] 1).
  apply (bool_decide_unpack _). vm_compute. exact I.
Defined.

Lemma Erase_removes_the_element_witness :
  LRUReplacer.Erase [3; 1; 2] 1
  = (bool_decide (1 ∈ [3; 1; 2]), filter (λ y, y ≠ 1) [3; 1; 2]).
Proof.
  apply (Erase_removes_the_element [3; 1; 2] 1).
  apply (bool_decide_unpack _). vm_compute. exact I.
Defined.

Lemma Victim_first_in_first_out_witness :
  LRUReplacer.Victim (foldl LRUReplacer.Insert [] [1; 2; 3])
  = Some (1, foldl LRUReplacer.Insert [] [2; 3]).
Proof.
  apply (Victim_first_in_first_out 1 [2; 3]).
  apply (bool_decide_unpack _). vm_compute. exact I.
Defined.

Lemma Insert_Erase_round_trip_witness :
  LRUReplacer.Erase (LRUReplacer.Insert [3; 2] 1) 1 = (true, [3; 2]) ∧
  LRUReplacer.Erase [3; 2] 1 = (false, [3; 2]).
Proof.
  apply (Insert_Erase_round_trip [3; 2] 1).
  apply (bool_decide_unpack _). vm_compute. exact I.
Defined.

(** ** Buffer pool manager *)

Section pool_more.
Context (hash : Z → Z) (BUCKET_SIZE : nat).
Import BufferPoolManager PoolSpec.

Implicit Types (s : BufferPoolManager.t) (f : nat) (p : Page) (page_id : Z).

(** X13.  After any calls on a pool of [pool_size] frames: the pool still
    has [pool_size] frames; the free list holds distinct frames, each
    unpinned and bound to no page id; the replacer holds frames of the
    pool; a page id bound in the page table is the page id its frame
    carries, so no frame is bound under two page ids. *)
Theorem reachable_pool_invariant pool_size s :
  reachable hash BUCKET_SIZE pool_size s →
  length (pages_ s) = pool_size ∧
  NoDup (free_list_ s) ∧
  (∀ f, f ∈ free_list_ s →
        ¬ resident_frame hash s f ∧ ∃ p, pages_ s !! f = Some p ∧ pin_count_ p = 0%Z) ∧
  (∀ f, f ∈ replacer_ s → f < pool_size) ∧
  (∀ page_id f, pt_Find hash (page_table_ s) page_id = Ok (Some f) →
                ∃ p, pages_ s !! f = Some p ∧ page_id_ p = page_id) ∧
  (∀ page_id1 page_id2 f,
      pt_Find hash (page_table_ s) page_id1 = Ok (Some f) →
      pt_Find hash (page_table_ s) page_id2 = Ok (Some f) → page_id1 = page_id2).
Proof.
  intros Hr. apply reachable_wf in Hr as [Hwf Hsz].
  pose proof (wf_pool_size _ _ _ Hwf) as Hlen. rewrite Hsz in Hlen.
  split; [exact Hlen|]. split; [apply Hwf|]. split; [apply Hwf|]. split; [|split].
  - intros f Hf. rewrite <- Hlen. apply (wf_replacer _ _ _ Hwf f Hf).
  - apply (wf_resident _ _ _ Hwf).
  - intros page_id1 page_id2 f H1 H2.
    destruct (wf_resident _ _ _ Hwf _ _ H1) as (p1 & Hp1 & <-).
    destruct (wf_resident _ _ _ Hwf _ _ H2) as (p2 & Hp2 & <-). congruence.
Qed.

Lemma FetchPage_install_binds s0 f1 page_id f s' :
  HashSpec.shape BUCKET_SIZE (page_table_ s0) →
  pt_Find hash (page_table_ s0) page_id = Ok None →
  FetchPage_install hash s0 f1 page_id = Ok (Some f, s') →
  pt_Find hash (page_table_ s') page_id = Ok (Some f) ∧
  pages_ s' !! f = Some (mkPage page_id 1 false).
Proof.
  intros Hs0 Hnone Hi.
  apply FetchPage_install_Ok in Hi as (p & pt' & Hp & Hins & [= <-] & ->). simpl.
  destruct (pt_Insert_Ok hash BUCKET_SIZE _ _ _ _ Hs0 Hins) as (_ & _ & Hsame).
  split; [apply (Hsame None Hnone)|].
  apply list_lookup_insert_eq. eapply lookup_lt_Some, Hp.
Qed.

(** X14.  When [FetchPage(pid)] returns a frame, after any calls, [pid] is
    bound to that frame afterwards and the frame carries [pid].  If the page
    was resident, the frame is the one it was bound to, its pin count has
    grown by one and its dirty flag is kept; if not, the pin count is 1 and
    the frame is clean. *)
Theorem FetchPage_returns_frame_of_page pool_size s page_id f s' :
  reachable hash BUCKET_SIZE pool_size s →
  FetchPage hash s page_id = Ok (Some f, s') →
  pt_Find hash (page_table_ s') page_id = Ok (Some f) ∧
  ∃ p', pages_ s' !! f = Some p' ∧ page_id_ p' = page_id ∧
        ((∃ p, pt_Find hash (page_table_ s) page_id = Ok (Some f) ∧
               pages_ s !! f = Some p ∧
               pin_count_ p' = (pin_count_ p + 1)%Z ∧ is_dirty_ p' = is_dirty_ p) ∨
         (pt_Find hash (page_table_ s) page_id = Ok None ∧
          pin_count_ p' = 1%Z ∧ is_dirty_ p' = false)).
Proof.
  intros Hr Hf. apply reachable_wf in Hr as [Hwf _].
  pose proof (wf_page_table _ _ _ Hwf) as Hshape.
  unfold FetchPage in Hf. case_bool_decide; [discriminate|].
  apply bind_Ok in Hf as (found & Hfind & Hf). destruct found as [f0|].
  - apply bind_Ok in Hf as (p & Hp & Hf). apply page_at_Ok in Hp.
    apply bind_Ok in Hf as (pc & Hpc & Hf).
    unfold int_op in Hpc. case_bool_decide; [|discriminate]. injection Hpc as <-.
    apply bind_Ok in Hf as (s1 & Hs1 & Hf). apply set_page_Ok in Hs1 as [Hlt ->].
    simpl in Hf. injection Hf as <- <-. simpl.
    destruct (wf_resident _ _ _ Hwf _ _ Hfind) as (q & Hq & Hid).
    assert (q = p) as -> by congruence.
    split; [exact Hfind|]. eexists. split; [apply list_lookup_insert_eq, Hlt|].
    simpl. split; [exact Hid|]. left. exists p. auto.
  - assert (∀ f1 s0,
              HashSpec.shape BUCKET_SIZE (page_table_ s0) →
              pt_Find hash (page_table_ s0) page_id = Ok None →
              FetchPage_install hash s0 f1 page_id = Ok (Some f, s') →
              pt_Find hash (page_table_ s') page_id = Ok (Some f) ∧
              ∃ p', pages_ s' !! f = Some p' ∧ page_id_ p' = page_id ∧
                    ((∃ p, pt_Find hash (page_table_ s) page_id = Ok (Some f) ∧
                           pages_ s !! f = Some p ∧
                           pin_count_ p' = (pin_count_ p + 1)%Z ∧
                           is_dirty_ p' = is_dirty_ p) ∨
                     (pt_Find hash (page_table_ s) page_id = Ok None ∧
                      pin_count_ p' = 1%Z ∧ is_dirty_ p' = false))) as Hdone.
    { intros f1 s0 Hs0 Hnone Hi.
      destruct (FetchPage_install_binds _ _ _ _ _ Hs0 Hnone Hi) as [Hb Hp'].
      split; [exact Hb|]. eexists. split; [exact Hp'|]. simpl. auto. }
    destruct (free_list_ s) as [|f1 rest].
    + destruct (LRUReplacer.Victim (replacer_ s)) as [[f1 vec]|]; [|discriminate].
      apply bind_Ok in Hf as (p & Hp & Hf).
      case_bool_decide; [discriminate|].
      assert (∃ s0, page_table_ s0 = page_table_ s ∧
                    ('(_, pt) ← pt_Remove hash (page_table_ s0) (page_id_ p);
                     FetchPage_install hash (set_page_table s0 pt) f1 page_id)
                    = Ok (Some f, s')) as (s0 & Hpt0 & Hf').
      { destruct (is_dirty_ p); eexists; (split; [|exact Hf]); reflexivity. }
      rewrite Hpt0 in Hf'. apply bind_Ok in Hf' as ([b pt1] & Hrem & Hf').
      destruct (pt_Remove_Ok hash BUCKET_SIZE _ (page_id_ p) Hshape)
        as (b' & pt1' & Hrem' & Hs1 & Hgone & Hrest).
      rewrite Hrem in Hrem'. injection Hrem' as <- <-.
      apply (Hdone f1 (set_page_table s0 pt1)); simpl; auto.
      destruct (decide (page_id = page_id_ p)) as [->|Hne]; [exact Hgone|].
      rewrite (Hrest _ Hne). exact Hfind.
    + apply (Hdone f1 (set_free_list s rest)); simpl; auto.
Qed.

(** What a [NewPage] that returned has done. *)
Lemma NewPage_Ok s r s' :
  NewPage hash s = Ok (r, s') →
  (r = None ∧ s' = s ∧ free_list_ s = [] ∧ replacer_ s = []) ∨
  (∃ f p b pt1 pt2 free' vec',
      ((free_list_ s = f :: free' ∧ vec' = replacer_ s) ∨
       (free_list_ s = [] ∧ free' = [] ∧ replacer_ s = vec' ++ [f])) ∧
      pages_ s !! f = Some p ∧
      pt_Remove hash (page_table_ s) (page_id_ p) = Ok (b, pt1) ∧
      pt_Insert hash pt1 (next_page_id_ (disk_manager_ s)) f = Ok pt2 ∧
      r = Some (f, next_page_id_ (disk_manager_ s)) ∧
      s' = {| pool_size_ := pool_size_ s;
              pages_ := <[f := mkPage (next_page_id_ (disk_manager_ s)) 1 false]> (pages_ s);
              page_table_ := pt2; replacer_ := vec'; free_list_ := free';
              disk_manager_ :=
                {| next_page_id_ := (next_page_id_ (disk_manager_ s) + 1)%Z;
                   calls := calls (disk_manager_ s) ++ [AllocatePage] ++
                            (if is_dirty_ p then [WritePage (page_id_ p)] else []) |} |}).
Proof.
  unfold NewPage. destruct (free_list_ s) as [|f rest] eqn:Hfree.
  - destruct (LRUReplacer.Victim (replacer_ s)) as [[f vec]|] eqn:Hv.
    2:{ intros [= <- <-]. left. destruct (replacer_ s); [auto | discriminate]. }
    apply Victim_Some in Hv. simpl. intros Hn. right.
    apply bind_Ok in Hn as (p & Hp & Hn). apply page_at_Ok in Hp. simpl in Hp.
    exists f, p.
    destruct (is_dirty_ p) eqn:Hd; simpl in Hn;
      apply bind_Ok in Hn as ([b pt1] & Hrem & Hn);
      apply bind_Ok in Hn as (pt2 & Hins & Hn);
      apply bind_Ok in Hn as (s1 & Hs1 & Hn); apply set_page_Ok in Hs1 as [Hlt ->];
      simpl in *; injection Hn as <- <-;
      exists b, pt1, pt2, [], vec; repeat split; auto;
      unfold disk_log; simpl;
      rewrite ?Hfree, <- ?app_assoc; simpl; rewrite ?app_nil_r; reflexivity.
  - simpl. intros Hn. right.
    apply bind_Ok in Hn as (p & Hp & Hn). apply page_at_Ok in Hp. simpl in Hp.
    exists f, p.
    destruct (is_dirty_ p) eqn:Hd; simpl in Hn;
      apply bind_Ok in Hn as ([b pt1] & Hrem & Hn);
      apply bind_Ok in Hn as (pt2 & Hins & Hn);
      apply bind_Ok in Hn as (s1 & Hs1 & Hn); apply set_page_Ok in Hs1 as [Hlt ->];
      simpl in *; injection Hn as <- <-;
      exists b, pt1, pt2, rest, (replacer_ s); repeat split; auto;
      unfold disk_log; simpl;
      rewrite <- ?app_assoc; simpl; rewrite ?app_nil_r; reflexivity.
Qed.

(** X15.  When [NewPage] returns a frame, after any calls, the page id it
    reports is the one the disk manager allocated, the frame carries it
    with pin count 1 and a clear dirty flag, and the page id is bound to the
    frame unless it was bound already. *)
Theorem NewPage_returns_pinned_clean_frame pool_size s f page_id s' :
  reachable hash BUCKET_SIZE pool_size s →
  NewPage hash s = Ok (Some (f, page_id), s') →
  page_id = next_page_id_ (disk_manager_ s) ∧
  next_page_id_ (disk_manager_ s') = (page_id + 1)%Z ∧
  pages_ s' !! f = Some (mkPage page_id 1 false) ∧
  (pt_Find hash (page_table_ s) page_id = Ok None →
   pt_Find hash (page_table_ s') page_id = Ok (Some f)).
Proof.
  intros Hr Hn. apply reachable_wf in Hr as [Hwf _].
  pose proof (wf_page_table _ _ _ Hwf) as Hshape.
  apply NewPage_Ok in Hn as [(? & _)|
    (f1 & p & b & pt1 & pt2 & free' & vec' & _ & Hp & Hrem & Hins & Hret & ->)];
    [discriminate|].
  injection Hret as -> Hpid. subst page_id. simpl.
  split; [reflexivity|]. split; [reflexivity|].
  split; [apply list_lookup_insert_eq; eapply lookup_lt_Some, Hp|].
  intros Hnone.
  destruct (pt_Remove_Ok hash BUCKET_SIZE _ (page_id_ p) Hshape)
    as (b' & pt1' & Hrem' & Hs1 & Hgone & Hrest).
  rewrite Hrem in Hrem'. injection Hrem' as <- <-.
  destruct (pt_Insert_Ok hash BUCKET_SIZE _ _ _ _ Hs1 Hins) as (_ & _ & Hsame).
  apply (Hsame None).
  destruct (decide (next_page_id_ (disk_manager_ s) = page_id_ p)) as [->|Hne];
    [exact Hgone|].
  rewrite (Hrest _ Hne). exact Hnone.
Qed.

(** X16.  [NewPage] returns no frame exactly when the free list and the
    replacer are both empty, and then it changes nothing; unlike
    [FetchPage] it does not look at the pin count of the frame the replacer
    hands out. *)
Theorem NewPage_absent_exactly s :
  ((∃ s', NewPage hash s = Ok (None, s')) ↔ free_list_ s = [] ∧ replacer_ s = []) ∧
  (∀ s', NewPage hash s = Ok (None, s') → s' = s).
Proof.
  split; [split|].
  - intros [s' Hn]. apply NewPage_Ok in Hn as [(_ & _ & Hf & Hv)|
      (f1 & p & b & pt1 & pt2 & free' & vec' & _ & _ & _ & _ & Hret & _)];
      [auto | discriminate].
  - intros [Hf Hv]. exists s. unfold NewPage. rewrite Hf, Hv. reflexivity.
  - intros s' Hn. apply NewPage_Ok in Hn as [(_ & -> & _)|
      (f1 & p & b & pt1 & pt2 & free' & vec' & _ & _ & _ & _ & Hret & _)];
      [reflexivity | discriminate].
Qed.

(** X17.  [UnpinPage] returns [false] exactly when the page is not
    resident or the pin count of its frame is not positive, and then it
    changes nothing. *)
Theorem UnpinPage_refuses_exactly s page_id d s' :
  UnpinPage hash s page_id d = Ok (false, s') ↔
  s' = s ∧
  (pt_Find hash (page_table_ s) page_id = Ok None ∨
   ∃ f p, pt_Find hash (page_table_ s) page_id = Ok (Some f) ∧
          pages_ s !! f = Some p ∧ (pin_count_ p ≤ 0)%Z).
Proof.
  unfold UnpinPage. split.
  - intros Hu. apply bind_Ok in Hu as (found & Hfind & Hu).
    destruct found as [f|]; [|injection Hu as <-; auto].
    apply bind_Ok in Hu as (p & Hp & Hu). apply page_at_Ok in Hp.
    case_bool_decide as Hpin.
    + injection Hu as <-. split; [reflexivity|]. right. exists f, p. auto.
    + apply bind_Ok in Hu as (s1 & _ & Hu). discriminate.
  - intros [-> [Hfind|(f & p & Hfind & Hp & Hpin)]]; rewrite Hfind; simpl.
    + reflexivity.
    + apply page_at_Ok in Hp. rewrite Hp. simpl.
      rewrite bool_decide_eq_true_2 by exact Hpin. reflexivity.
Qed.

(** X18.  After any calls, [FlushPage(pid)] returns [true] exactly when
    [pid] is not the sentinel and the page is resident; it then asks the
    disk manager for one [WritePage(pid)] and changes nothing else, and
    otherwise it changes nothing at all. *)
Theorem FlushPage_writes_resident_page pool_size s page_id :
  reachable hash BUCKET_SIZE pool_size s →
  ∃ found,
    pt_Find hash (page_table_ s) page_id = Ok found ∧
    FlushPage hash s page_id =
    Ok (if bool_decide (page_id ≠ INVALID_PAGE_ID ∧ is_Some found)
        then (true, set_disk s (disk_log (WritePage page_id) (disk_manager_ s)))
        else (false, s)).
Proof.
  intros Hr. apply reachable_wf in Hr as [Hwf _].
  destruct (pt_Find_Ok hash BUCKET_SIZE _ page_id (wf_page_table _ _ _ Hwf))
    as [found Hfind].
  exists found. split; [exact Hfind|]. unfold FlushPage.
  case_bool_decide as Hinv.
  { rewrite bool_decide_eq_false_2 by tauto. reflexivity. }
  rewrite Hfind. simpl. destruct found as [f|].
  - destruct (wf_resident _ _ _ Hwf _ _ Hfind) as (p & Hp & Hid).
    apply page_at_Ok in Hp. rewrite Hp. simpl. rewrite Hid.
    rewrite bool_decide_eq_true_2 by eauto. reflexivity.
  - rewrite bool_decide_eq_false_2; [reflexivity|].
    intros [_ [? [=]]].
Qed.

(** X19.  After any calls, [DeletePage(pid)] of a page that is not resident
    only asks the disk manager to deallocate it and returns [true]; of a
    resident pinned page it returns [false] and changes nothing; of a
    resident unpinned page it returns [true], unbinds the page, resets the
    frame and appends it to the free list, and leaves the replacer as it
    is. *)
Theorem DeletePage_cases pool_size s page_id :
  reachable hash BUCKET_SIZE pool_size s →
  ∃ found,
    pt_Find hash (page_table_ s) page_id = Ok found ∧
    match found with
    | None =>
        DeletePage hash s page_id
        = Ok (true, set_disk s (disk_log (DeallocatePage page_id) (disk_manager_ s)))
    | Some f =>
        ∃ p, pages_ s !! f = Some p ∧
             if bool_decide (pin_count_ p > 0)%Z
             then DeletePage hash s page_id = Ok (false, s)
             else ∃ s', DeletePage hash s page_id = Ok (true, s') ∧
                        pt_Find hash (page_table_ s') page_id = Ok None ∧
                        pages_ s' = <[f := fresh_page]> (pages_ s) ∧
                        free_list_ s' = free_list_ s ++ [f] ∧
                        replacer_ s' = replacer_ s ∧
                        calls (disk_manager_ s')
                        = calls (disk_manager_ s) ++ [DeallocatePage page_id]
    end.
Proof.
  intros Hr. apply reachable_wf in Hr as [Hwf _].
  pose proof (wf_page_table _ _ _ Hwf) as Hshape.
  destruct (pt_Find_Ok hash BUCKET_SIZE _ page_id Hshape) as [found Hfind].
  exists found. split; [exact Hfind|]. unfold DeletePage. rewrite Hfind. simpl.
  destruct found as [f|]; [|reflexivity].
  destruct (wf_resident _ _ _ Hwf _ _ Hfind) as (p & Hp & Hid).
  exists p. split; [exact Hp|].
  pose proof (lookup_lt_Some _ _ _ Hp) as Hlt.
  apply page_at_Ok in Hp. rewrite Hp. simpl.
  case_bool_decide; [reflexivity|].
  destruct (pt_Remove_Ok hash BUCKET_SIZE _ (page_id_ p) Hshape)
    as (b & pt1 & Hrem & _ & Hgone & _).
  rewrite Hrem. simpl. unfold set_page. simpl.
  rewrite vec_set_nat by exact Hlt. simpl.
  eexists. split; [reflexivity|]. simpl. rewrite <- Hid. auto.
Qed.

(** What a [FetchPage] of a page that is not resident has done when it
    returned a frame. *)
Lemma FetchPage_miss_Ok s page_id f s' :
  pt_Find hash (page_table_ s) page_id = Ok None →
  FetchPage hash s page_id = Ok (Some f, s') →
  ∃ p pt1 pt2 free' vec' written,
    ((free_list_ s = f :: free' ∧ vec' = replacer_ s ∧ pt1 = page_table_ s ∧
      written = []) ∨
     (free_list_ s = [] ∧ free' = [] ∧ replacer_ s = vec' ++ [f] ∧
      pin_count_ p = 0%Z ∧
      (∃ b, pt_Remove hash (page_table_ s) (page_id_ p) = Ok (b, pt1)) ∧
      written = if is_dirty_ p then [WritePage (page_id_ p)] else [])) ∧
    pages_ s !! f = Some p ∧
    pt_Insert hash pt1 page_id f = Ok pt2 ∧
    s' = {| pool_size_ := pool_size_ s;
            pages_ := <[f := mkPage page_id 1 false]> (pages_ s);
            page_table_ := pt2; replacer_ := vec'; free_list_ := free';
            disk_manager_ :=
              {| next_page_id_ := next_page_id_ (disk_manager_ s);
                 calls := calls (disk_manager_ s) ++ written ++ [ReadPage page_id] |} |}.
Proof.
  intros Hfind. unfold FetchPage. case_bool_decide; [discriminate|].
  rewrite Hfind. simpl. destruct (free_list_ s) as [|f1 rest] eqn:Hfree.
  - destruct (LRUReplacer.Victim (replacer_ s)) as [[f1 vec]|] eqn:Hv; [|discriminate].
    apply Victim_Some in Hv. intros Hf.
    apply bind_Ok in Hf as (p & Hp & Hf). apply page_at_Ok in Hp. simpl in Hp.
    case_bool_decide as Hpin; [discriminate|].
    assert (pin_count_ p = 0%Z) as Hzero by (destruct (decide (pin_count_ p = 0%Z)); tauto).
    destruct (is_dirty_ p) eqn:Hd; simpl in Hf;
      apply bind_Ok in Hf as ([b pt1] & Hrem & Hf);
      apply FetchPage_install_Ok in Hf as (p1 & pt2 & Hp1 & Hins & [= <-] & ->);
      simpl in *;
      exists p, pt1, pt2, [], vec, (if is_dirty_ p then [WritePage (page_id_ p)] else []);
      rewrite Hd;
      (split; [right; repeat split; eauto|]);
      (split; [exact Hp|]); (split; [exact Hins|]);
      unfold disk_log; simpl; rewrite ?Hfree, <- ?app_assoc; reflexivity.
  - intros Hf.
    apply FetchPage_install_Ok in Hf as (p & pt2 & Hp & Hins & [= <-] & ->).
    simpl in *. exists p, (page_table_ s), pt2, rest, (replacer_ s), [].
    split; [left; auto|]. split; [exact Hp|]. split; [exact Hins|].
    unfold disk_log. simpl. reflexivity.
Qed.

(** X20.  After any calls, when the free list is empty and [FetchPage] of a
    page that is not resident returns a frame, the frame is the one at the
    back of the replacer and was unpinned; the replacer has lost exactly
    that frame; the disk manager was asked to write the old page exactly if
    the frame was dirty, and then to read the new page; the old page is no
    longer resident. *)
Theorem FetchPage_evicts_back_of_replacer pool_size s page_id f s' :
  reachable hash BUCKET_SIZE pool_size s →
  pt_Find hash (page_table_ s) page_id = Ok None →
  free_list_ s = [] →
  FetchPage hash s page_id = Ok (Some f, s') →
  ∃ vec p,
    replacer_ s = vec ++ [f] ∧ replacer_ s' = vec ∧
    pages_ s !! f = Some p ∧ pin_count_ p = 0%Z ∧
    calls (disk_manager_ s')
    = calls (disk_manager_ s) ++
      (if is_dirty_ p then [WritePage (page_id_ p)] else []) ++ [ReadPage page_id] ∧
    (page_id_ p ≠ page_id → pt_Find hash (page_table_ s') (page_id_ p) = Ok None).
Proof.
  intros Hr Hfind Hfree Hf. apply reachable_wf in Hr as [Hwf _].
  pose proof (wf_page_table _ _ _ Hwf) as Hshape.
  apply (FetchPage_miss_Ok _ _ _ _ Hfind) in Hf
    as (p & pt1 & pt2 & free' & vec' & written & Hcase & Hp & Hins & ->).
  destruct Hcase as [(Hcons & _)|(_ & _ & Hv & Hzero & [b Hrem] & ->)];
    [congruence|].
  exists vec', p. simpl. repeat split; auto.
  intros Hne.
  destruct (pt_Remove_Ok hash BUCKET_SIZE _ (page_id_ p) Hshape)
    as (b' & pt1' & Hrem' & Hs1 & Hgone & _).
  rewrite Hrem in Hrem'. injection Hrem' as <- <-.
  destruct (pt_Insert_Ok hash BUCKET_SIZE _ _ _ _ Hs1 Hins) as (_ & Hother & _).
  rewrite (Hother _ Hne). exact Hgone.
Qed.

(** X21.  Frames are taken from the free list first: when the free list is
    not empty, the frame a [FetchPage] of a non-resident page or a
    [NewPage] returns is the head of the free list, the replacer is left
    alone, and [FetchPage] asks the disk manager for no write. *)
Theorem free_list_is_used_first s f0 rest :
  free_list_ s = f0 :: rest →
  (∀ page_id f s',
      pt_Find hash (page_table_ s) page_id = Ok None →
      FetchPage hash s page_id = Ok (Some f, s') →
      f = f0 ∧ free_list_ s' = rest ∧ replacer_ s' = replacer_ s ∧
      calls (disk_manager_ s') = calls (disk_manager_ s) ++ [ReadPage page_id]) ∧
  (∀ r s', NewPage hash s = Ok (r, s') →
           ∃ page_id, r = Some (f0, page_id) ∧
                      free_list_ s' = rest ∧ replacer_ s' = replacer_ s).
Proof.
  intros Hfree. split.
  - intros page_id f s' Hfind Hf.
    apply (FetchPage_miss_Ok _ _ _ _ Hfind) in Hf
      as (p & pt1 & pt2 & free' & vec' & written & Hcase & Hp & Hins & ->).
    destruct Hcase as [(Hcons & -> & _ & ->)|(Hnil & _)]; [|congruence].
    rewrite Hfree in Hcons. injection Hcons as <- <-. simpl. auto.
  - intros r s' Hn.
    apply NewPage_Ok in Hn as [(_ & _ & Hnil & _)|
      (f & p & b & pt1 & pt2 & free' & vec' & Hcase & _ & _ & _ & -> & ->)];
      [congruence|].
    destruct Hcase as [(Hcons & ->)|(Hnil & _)]; [|congruence].
    rewrite Hfree in Hcons. injection Hcons as <- <-. simpl. eauto.
Qed.

(** X22.  As long as no call has released a frame, [FetchPage] of a
    resident page followed by [UnpinPage] with the frame's own dirty flag
    gives back the pool as it was if the frame was pinned before; if its
    pin count was 0, only the replacer differs: the frame has moved to its
    front. *)
Theorem FetchPage_UnpinPage_round_trip pool_size s page_id f p :
  reachable_keeping hash BUCKET_SIZE pool_size s →
  page_id ≠ INVALID_PAGE_ID →
  pt_Find hash (page_table_ s) page_id = Ok (Some f) →
  pages_ s !! f = Some p →
  (0 ≤ pin_count_ p < INT_MAX)%Z →
  ∃ s1,
    FetchPage hash s page_id = Ok (Some f, s1) ∧
    UnpinPage hash s1 page_id (is_dirty_ p) =
    Ok (true,
        if bool_decide (pin_count_ p = 0%Z)
        then set_replacer s (f :: filter (λ f', f' ≠ f) (replacer_ s))
        else s).
Proof.
  intros Hr Hinv Hfind Hp Hpin. apply reachable_keeping_inv in Hr as [Hwf Hlru].
  pose proof (lookup_lt_Some _ _ _ Hp) as Hlt.
  pose proof (erase_first_filter f (replacer_ s) (lru_NoDup _ Hlru)) as Hfilter.
  assert ((LRUReplacer.Erase (replacer_ s) f).2 = filter (λ f', f' ≠ f) (replacer_ s))
    as Herase.
  { unfold LRUReplacer.Erase. rewrite <- Hfilter.
    destruct (LRUReplacer.erase_first f (replacer_ s)); reflexivity. }
  unfold FetchPage. rewrite bool_decide_eq_false_2 by exact Hinv.
  rewrite Hfind. simpl.
  pose proof Hp as Hp'. apply page_at_Ok in Hp'. rewrite Hp'. simpl.
  unfold int_op. rewrite bool_decide_eq_true_2 by (unfold INT_MIN, INT_MAX in *; lia).
  simpl. unfold set_page at 1. rewrite vec_set_nat by exact Hlt. simpl.
  rewrite Herase.
  eexists. split; [reflexivity|].
  unfold UnpinPage. simpl. rewrite Hfind. simpl.
  unfold page_at. simpl. rewrite vec_get_nat, list_lookup_insert_eq by exact Hlt. simpl.
  rewrite bool_decide_eq_false_2 by lia.
  replace (pin_count_ p + 1 - 1)%Z with (pin_count_ p) by lia.
  assert (<[f := {| page_id_ := page_id_ p; pin_count_ := pin_count_ p;
                    is_dirty_ := is_dirty_ p |}]>
            (<[f := {| page_id_ := page_id_ p; pin_count_ := (pin_count_ p + 1)%Z;
                       is_dirty_ := is_dirty_ p |}]> (pages_ s)) = pages_ s) as Hpages.
  { rewrite list_insert_insert_eq. apply list_insert_id. rewrite Hp.
    destruct p; reflexivity. }
  destruct (decide (pin_count_ p = 0%Z)) as [Hz|Hnz].
  - rewrite (bool_decide_eq_true_2 (pin_count_ p ≤ 0)%Z) by lia.
    rewrite (bool_decide_eq_true_2 (pin_count_ p = 0%Z)) by exact Hz.
    unfold set_page. simpl. rewrite vec_set_nat by (rewrite length_insert; exact Hlt).
    simpl. rewrite Hpages. unfold LRUReplacer.Insert.
    assert (LRUReplacer.erase_first f (filter (λ f', f' ≠ f) (replacer_ s)) = None) as ->.
    { apply erase_first_None. intros Hin. apply list_elem_of_filter in Hin as [Hne _].
      apply Hne. reflexivity. }
    reflexivity.
  - rewrite (bool_decide_eq_false_2 (pin_count_ p ≤ 0)%Z) by lia.
    rewrite (bool_decide_eq_false_2 (pin_count_ p = 0%Z)) by exact Hnz.
    unfold set_page. simpl. rewrite vec_set_nat by (rewrite length_insert; exact Hlt).
    simpl. rewrite Hpages.
    assert (filter (λ f', f' ≠ f) (replacer_ s) = replacer_ s) as ->.
    { rewrite <- Hfilter.
      assert (f ∉ replacer_ s) as Hnot.
      { intros Hin. pose proof (lru_unpinned _ Hlru f p Hin Hp). lia. }
      apply erase_first_None in Hnot. rewrite Hnot. reflexivity. }
    destruct s; reflexivity.
Qed.
End pool_more.

Lemma reachable_pool_invariant_witness :
  let s := Samples.pool_page0 in
  length (BufferPoolManager.pages_ s) = 1 ∧
  NoDup (BufferPoolManager.free_list_ s) ∧
  (∀ f, f ∈ BufferPoolManager.free_list_ s →
        ¬ PoolSpec.resident_frame std_hash s f ∧
        ∃ p, BufferPoolManager.pages_ s !! f = Some p ∧
             BufferPoolManager.pin_count_ p = 0%Z) ∧
  (∀ f, f ∈ BufferPoolManager.replacer_ s → f < 1) ∧
  (∀ page_id f,
      BufferPoolManager.pt_Find std_hash (BufferPoolManager.page_table_ s) page_id
      = Ok (Some f) →
      ∃ p, BufferPoolManager.pages_ s !! f = Some p ∧
           BufferPoolManager.page_id_ p = page_id) ∧
  (∀ page_id1 page_id2 f,
      BufferPoolManager.pt_Find std_hash (BufferPoolManager.page_table_ s) page_id1
      = Ok (Some f) →
      BufferPoolManager.pt_Find std_hash (BufferPoolManager.page_table_ s) page_id2
      = Ok (Some f) → page_id1 = page_id2).
Proof.
  intros s. apply (reachable_pool_invariant std_hash 50 1 s).
  eapply PoolSpec.reach_step with (c := BufferPoolManager.CNewPage).
  - apply (PoolSpec.reach_create std_hash 50 1 (BufferPoolManager.mkDisk 0 [])).
  - vm_compute. reflexivity.
Defined.

Lemma FetchPage_returns_frame_of_page_witness :
  let s := Samples.pool_page0 in
  let s' := Samples.pool_page0_twice in
  BufferPoolManager.pt_Find std_hash (BufferPoolManager.page_table_ s') 0%Z = Ok (Some 0) ∧
  ∃ p', BufferPoolManager.pages_ s' !! 0 = Some p' ∧
        BufferPoolManager.page_id_ p' = 0%Z ∧
        ((∃ p, BufferPoolManager.pt_Find std_hash (BufferPoolManager.page_table_ s) 0%Z
               = Ok (Some 0) ∧
               BufferPoolManager.pages_ s !! 0 = Some p ∧
               BufferPoolManager.pin_count_ p' = (BufferPoolManager.pin_count_ p + 1)%Z ∧
               BufferPoolManager.is_dirty_ p' = BufferPoolManager.is_dirty_ p) ∨
         (BufferPoolManager.pt_Find std_hash (BufferPoolManager.page_table_ s) 0%Z = Ok None ∧
          BufferPoolManager.pin_count_ p' = 1%Z ∧ BufferPoolManager.is_dirty_ p' = false)).
Proof.
  intros s s'. apply (FetchPage_returns_frame_of_page std_hash 50 1 s 0%Z 0 s').
  - eapply PoolSpec.reach_step with (c := BufferPoolManager.CNewPage).
    + apply (PoolSpec.reach_create std_hash 50 1 (BufferPoolManager.mkDisk 0 [])).
    + vm_compute. reflexivity.
  - vm_compute. reflexivity.
Defined.

Lemma NewPage_returns_pinned_clean_frame_witness :
  let s := Samples.pool_new in
  let s' := Samples.pool_page0 in
  0%Z = BufferPoolManager.next_page_id_ (BufferPoolManager.disk_manager_ s) ∧
  BufferPoolManager.next_page_id_ (BufferPoolManager.disk_manager_ s') = (0 + 1)%Z ∧
  BufferPoolManager.pages_ s' !! 0 = Some (BufferPoolManager.mkPage 0 1 false) ∧
  (BufferPoolManager.pt_Find std_hash (BufferPoolManager.page_table_ s) 0%Z = Ok None →
   BufferPoolManager.pt_Find std_hash (BufferPoolManager.page_table_ s') 0%Z = Ok (Some 0)).
Proof.
  intros s s'. apply (NewPage_returns_pinned_clean_frame std_hash 50 1 s 0 0%Z s').
  - apply (PoolSpec.reach_create std_hash 50 1 (BufferPoolManager.mkDisk 0 [])).
  - vm_compute. reflexivity.
Defined.

Lemma FlushPage_writes_resident_page_witness :
  let s := Samples.pool_page0 in
  ∃ found,
    BufferPoolManager.pt_Find std_hash (BufferPoolManager.page_table_ s) 0%Z = Ok found ∧
    BufferPoolManager.FlushPage std_hash s 0%Z =
    Ok (if bool_decide (0%Z ≠ BufferPoolManager.INVALID_PAGE_ID ∧ is_Some found)
        then (true, BufferPoolManager.set_disk s
                      (BufferPoolManager.disk_log (BufferPoolManager.WritePage 0)
                         (BufferPoolManager.disk_manager_ s)))
        else (false, s)).
Proof.
  intros s. apply (FlushPage_writes_resident_page std_hash 50 1 s 0%Z).
  eapply PoolSpec.reach_step with (c := BufferPoolManager.CNewPage).
  - apply (PoolSpec.reach_create std_hash 50 1 (BufferPoolManager.mkDisk 0 [])).
  - vm_compute. reflexivity.
Defined.

Lemma DeletePage_cases_witness :
  let s := Samples.pool_page0_dirty in
  ∃ found,
    BufferPoolManager.pt_Find std_hash (BufferPoolManager.page_table_ s) 0%Z = Ok found ∧
    match found with
    | None =>
        BufferPoolManager.DeletePage std_hash s 0%Z
        = Ok (true, BufferPoolManager.set_disk s
                      (BufferPoolManager.disk_log (BufferPoolManager.DeallocatePage 0)
                         (BufferPoolManager.disk_manager_ s)))
    | Some f =>
        ∃ p, BufferPoolManager.pages_ s !! f = Some p ∧
             if bool_decide (BufferPoolManager.pin_count_ p > 0)%Z
             then BufferPoolManager.DeletePage std_hash s 0%Z = Ok (false, s)
             else ∃ s', BufferPoolManager.DeletePage std_hash s 0%Z = Ok (true, s') ∧
                        BufferPoolManager.pt_Find std_hash
                          (BufferPoolManager.page_table_ s') 0%Z = Ok None ∧
                        BufferPoolManager.pages_ s'
                        = <[f := BufferPoolManager.fresh_page]> (BufferPoolManager.pages_ s) ∧
                        BufferPoolManager.free_list_ s'
                        = BufferPoolManager.free_list_ s ++ [f] ∧
                        BufferPoolManager.replacer_ s' = BufferPoolManager.replacer_ s ∧
                        BufferPoolManager.calls (BufferPoolManager.disk_manager_ s')
                        = BufferPoolManager.calls (BufferPoolManager.disk_manager_ s)
                          ++ [BufferPoolManager.DeallocatePage 0]
    end.
Proof.
  intros s. apply (DeletePage_cases std_hash 50 1 s 0%Z).
  eapply PoolSpec.reach_step with (c := BufferPoolManager.CUnpinPage 0 true).
  - eapply PoolSpec.reach_step with (c := BufferPoolManager.CNewPage).
    + apply (PoolSpec.reach_create std_hash 50 1 (BufferPoolManager.mkDisk 0 [])).
    + vm_compute. reflexivity.
  - vm_compute. reflexivity.
Defined.

Lemma FetchPage_evicts_back_of_replacer_witness :
  let s := Samples.pool_page0_dirty in
  let s' := Samples.pool_page1 in
  ∃ vec p,
    BufferPoolManager.replacer_ s = vec ++ [0] ∧ BufferPoolManager.replacer_ s' = vec ∧
    BufferPoolManager.pages_ s !! 0 = Some p ∧ BufferPoolManager.pin_count_ p = 0%Z ∧
    BufferPoolManager.calls (BufferPoolManager.disk_manager_ s')
    = BufferPoolManager.calls (BufferPoolManager.disk_manager_ s) ++
      (if BufferPoolManager.is_dirty_ p
       then [BufferPoolManager.WritePage (BufferPoolManager.page_id_ p)] else []) ++
      [BufferPoolManager.ReadPage 1] ∧
    (BufferPoolManager.page_id_ p ≠ 1%Z →
     BufferPoolManager.pt_Find std_hash (BufferPoolManager.page_table_ s')
       (BufferPoolManager.page_id_ p) = Ok None).
Proof.
  intros s s'. apply (FetchPage_evicts_back_of_replacer std_hash 50 1 s 1%Z 0 s').
  - eapply PoolSpec.reach_step with (c := BufferPoolManager.CUnpinPage 0 true).
    + eapply PoolSpec.reach_step with (c := BufferPoolManager.CNewPage).
      * apply (PoolSpec.reach_create std_hash 50 1 (BufferPoolManager.mkDisk 0 [])).
      * vm_compute. reflexivity.
    + vm_compute. reflexivity.
  - vm_compute. reflexivity.
  - reflexivity.
  - vm_compute. reflexivity.
Defined.

Lemma free_list_is_used_first_witness :
  let s := BufferPoolManager.create 50 2 (BufferPoolManager.mkDisk 0 []) in
  (∀ page_id f s',
      BufferPoolManager.pt_Find std_hash (BufferPoolManager.page_table_ s) page_id = Ok None →
      BufferPoolManager.FetchPage std_hash s page_id = Ok (Some f, s') →
      f = 0 ∧ BufferPoolManager.free_list_ s' = [1] ∧
      BufferPoolManager.replacer_ s' = BufferPoolManager.replacer_ s ∧
      BufferPoolManager.calls (BufferPoolManager.disk_manager_ s')
      = BufferPoolManager.calls (BufferPoolManager.disk_manager_ s)
        ++ [BufferPoolManager.ReadPage page_id]) ∧
  (∀ r s', BufferPoolManager.NewPage std_hash s = Ok (r, s') →
           ∃ page_id, r = Some (0, page_id) ∧
                      BufferPoolManager.free_list_ s' = [1] ∧
                      BufferPoolManager.replacer_ s' = BufferPoolManager.replacer_ s).
Proof.
  intros s. apply (free_list_is_used_first std_hash s 0 [1]). reflexivity.
Defined.

Lemma FetchPage_UnpinPage_round_trip_witness :
  let s := Samples.pool_page0 in
  let p := BufferPoolManager.mkPage 0 1 false in
  ∃ s1,
    BufferPoolManager.FetchPage std_hash s 0%Z = Ok (Some 0, s1) ∧
    BufferPoolManager.UnpinPage std_hash s1 0%Z (BufferPoolManager.is_dirty_ p) =
    Ok (true,
        if bool_decide (BufferPoolManager.pin_count_ p = 0%Z)
        then BufferPoolManager.set_replacer s
               (0 :: filter (λ f', f' ≠ 0) (BufferPoolManager.replacer_ s))
        else s).
Proof.
  intros s p. apply (FetchPage_UnpinPage_round_trip std_hash 50 1 s 0%Z 0 p).
  - eapply PoolSpec.keep_step with (c := BufferPoolManager.CNewPage).
    + apply (PoolSpec.keep_create std_hash 50 1 (BufferPoolManager.mkDisk 0 [])).
    + simpl. tauto.
    + vm_compute. reflexivity.
  - unfold BufferPoolManager.INVALID_PAGE_ID. lia.
  - vm_compute. reflexivity.
  - reflexivity.
  - simpl. unfold INT_MAX. lia.
Defined.

(** ** Lock manager *)

Section lock_more.
Context `{Countable RID} (oldest0 : Z).
Import LockManager.

Implicit Types (lm : LockManager.t (RID := RID)) (txn : Transaction (RID := RID))
  (rid : RID) (w : Waiting) (l : list Request).

Lemma set_entry_twice lm rid w w' :
  set_entry (set_entry lm rid w) rid w' = set_entry lm rid w'.
Proof. unfold set_entry. simpl. rewrite insert_insert_eq. reflexivity. Qed.

Lemma entry_set_entry lm rid w : entry oldest0 (set_entry lm rid w) rid = w.
Proof. unfold entry, set_entry. simpl. rewrite lookup_insert_eq. reflexivity. Qed.

(** X23.  [LockExclusive] by a transaction that is [GROWING] and does not
    hold the exclusive lock returns [false] exactly when the record has an
    entry and the transaction is younger than the entry's [oldest]; the
    transaction is then [ABORTED] and the lock table is as it was. *)
Theorem LockExclusive_refuses_exactly lm txn rid lm' txn' :
  state_ txn = GROWING →
  rid ∉ exclusive_lock_set_ txn →
  LockExclusive oldest0 lm txn rid = Ok (Returned false, lm', txn') ↔
  (∃ w, lock_table_ lm !! rid = Some w ∧ (txn_id_ txn > oldest w)%Z) ∧
  lm' = lm ∧ txn' = SetState txn ABORTED.
Proof.
  intros Hst Hnot. unfold LockExclusive, LockExclusive_enqueue.
  rewrite Hst. simpl. rewrite bool_decide_eq_true_2 by exact Hnot. simpl.
  destruct (lock_table_ lm !! rid) as [w|] eqn:Hw.
  - case_bool_decide as Hyoung; simpl.
    + split.
      * intros [= <- <-]. eauto.
      * intros (_ & -> & ->). reflexivity.
    + split.
      * unfold LockExclusive_resume. intros Hr. repeat case_match; discriminate.
      * intros ((w' & [= <-] & Hgt) & _). contradiction.
  - simpl. split.
    + unfold LockExclusive_resume. intros Hr. repeat case_match; discriminate.
    + intros ((w' & [=] & _) & _).
Qed.

(** X24.  The first request for a record, by a [GROWING] transaction that
    holds no lock on it, is granted at once: [LockShared] and
    [LockExclusive] return [true], the new entry has the transaction as
    [oldest] and its granted request as its list, counts one granted
    exclusive request for [LockExclusive] and none for [LockShared], and
    the record joins the matching lock set. *)
Theorem first_request_is_granted lm txn rid :
  lock_table_ lm !! rid = None →
  state_ txn = GROWING →
  rid ∉ shared_lock_set_ txn → rid ∉ exclusive_lock_set_ txn →
  LockShared oldest0 lm txn rid =
    Ok (Returned true,
        set_entry lm rid
          {| oldest := txn_id_ txn; exclusive_cnt := 0;
             req_list := [{| txn_id := txn_id_ txn; lock_mode := SHARED;
                             granted := true |}] |},
        set_lock_sets txn ({[rid]} ∪ shared_lock_set_ txn) (exclusive_lock_set_ txn)) ∧
  LockExclusive oldest0 lm txn rid =
    Ok (Returned true,
        set_entry lm rid
          {| oldest := txn_id_ txn; exclusive_cnt := 1;
             req_list := [{| txn_id := txn_id_ txn; lock_mode := EXCLUSIVE;
                             granted := true |}] |},
        set_lock_sets txn (shared_lock_set_ txn) ({[rid]} ∪ exclusive_lock_set_ txn)).
Proof.
  intros Hnone Hst Hs Hx. split.
  - unfold LockShared, LockShared_enqueue. rewrite Hst. simpl.
    rewrite bool_decide_eq_true_2 by exact Hs. simpl. rewrite Hnone. simpl.
    unfold LockShared_resume. rewrite entry_set_entry. simpl.
    rewrite (bool_decide_eq_false_2 (txn_id_ txn ≠ txn_id_ txn)) by tauto.
    simpl. rewrite set_entry_twice. reflexivity.
  - unfold LockExclusive, LockExclusive_enqueue. rewrite Hst. simpl.
    rewrite bool_decide_eq_true_2 by exact Hx. simpl. rewrite Hnone. simpl.
    unfold LockExclusive_resume. rewrite entry_set_entry. simpl.
    rewrite (bool_decide_eq_false_2 (txn_id_ txn ≠ txn_id_ txn)) by tauto.
    simpl. rewrite set_entry_twice. reflexivity.
Qed.

(** X25.  The wait predicates look only at the requests in front of the
    caller's own.  [LockShared] goes on exactly when each of them is a
    shared request that is not granted; [LockExclusive] goes on exactly when
    none of them is granted.  So a shared request waits behind a shared
    request that another transaction has been granted. *)
Theorem wait_predicates_look_in_front id (pre : list Request) r rest :
  Forall (λ q, txn_id q ≠ id) pre → txn_id r = id →
  (LockShared_pred id (pre ++ r :: rest) = true ↔
   Forall (λ q, lock_mode q = SHARED ∧ granted q = false) pre) ∧
  (LockExclusive_pred id (pre ++ r :: rest) = true ↔
   Forall (λ q, granted q = false) pre).
Proof.
  intros Hpre Hr. induction Hpre as [|q pre Hq Hpre [IHs IHx]]; simpl.
  - rewrite (bool_decide_eq_false_2 (txn_id r ≠ id)) by tauto.
    split; split; auto using Forall_nil.
  - rewrite (bool_decide_eq_true_2 (txn_id q ≠ id)) by exact Hq. split.
    + rewrite Forall_cons. destruct (lock_mode q), (granted q); simpl;
        rewrite ?IHs; split; try discriminate; try tauto;
        intros [[? ?] ?]; discriminate.
    + rewrite Forall_cons. destruct (granted q); simpl;
        rewrite ?IHx; split; try discriminate; try tauto.
      intros [? ?]; discriminate.
Qed.

(** X26.  On a record without an entry and without strict two-phase
    locking, [LockExclusive] followed by [Unlock] by the same transaction
    both return [true]; the entry stays in the lock table with an empty
    list and no granted exclusive request, the transaction is [SHRINKING]
    and its lock sets are as before. *)
Theorem LockExclusive_Unlock_round_trip lm txn rid :
  lock_table_ lm !! rid = None →
  strict_2PL_ lm = false →
  state_ txn = GROWING →
  rid ∉ exclusive_lock_set_ txn →
  ∃ lm1 txn1,
    LockExclusive oldest0 lm txn rid = Ok (Returned true, lm1, txn1) ∧
    Unlock oldest0 lm1 txn1 rid =
    Ok (true,
        set_entry lm rid {| oldest := txn_id_ txn; exclusive_cnt := 0; req_list := [] |},
        SetState txn SHRINKING).
Proof.
  intros Hnone Hstrict Hst Hx.
  unfold LockExclusive, LockExclusive_enqueue. rewrite Hst. simpl.
  rewrite bool_decide_eq_true_2 by exact Hx. simpl. rewrite Hnone. simpl.
  unfold LockExclusive_resume. rewrite entry_set_entry. simpl.
  rewrite (bool_decide_eq_false_2 (txn_id_ txn ≠ txn_id_ txn)) by tauto.
  simpl. rewrite set_entry_twice.
  eexists. eexists. split; [reflexivity|].
  unfold Unlock. simpl.
  rewrite (bool_decide_eq_true_2 (rid ∈ {[rid]} ∪ exclusive_lock_set_ txn))
    by set_solver.
  rewrite orb_true_r. simpl. rewrite Hstrict. simpl. rewrite Hst. simpl.
  rewrite entry_set_entry. simpl.
  rewrite (bool_decide_eq_true_2 (txn_id_ txn = txn_id_ txn)) by reflexivity.
  simpl. rewrite set_entry_twice. unfold SetState, set_lock_sets. simpl.
  replace (({[rid]} ∪ exclusive_lock_set_ txn) ∖ {[rid]}) with (exclusive_lock_set_ txn)
    by set_solver.
  reflexivity.
Qed.

Lemma Unlock_oldest_bound o l :
  (Unlock_oldest o l ≤ o)%Z ∧ Forall (λ r, (Unlock_oldest o l ≤ txn_id r)%Z) l.
Proof.
  unfold Unlock_oldest. revert o. induction l as [|r l IH]; intros o; simpl.
  - split; [lia | constructor].
  - destruct (IH (if bool_decide (txn_id r < o)%Z then txn_id r else o)) as [Hle Hall].
    case_bool_decide; (split; [lia|]); constructor; auto; lia.
Qed.

Lemma Unlock_erase_elem id l m l' :
  Unlock_erase id l = Some (m, l') → ∀ r, r ∈ l' → r ∈ l.
Proof.
  revert m l'. induction l as [|q l IH]; intros m l'; simpl; [discriminate|].
  case_bool_decide.
  - intros [= _ <-] r Hr. apply elem_of_cons. auto.
  - destruct (Unlock_erase id l) as [[m0 l0]|] eqn:E; simpl; [|discriminate].
    intros [= <- <-] r Hr. apply elem_of_cons in Hr as [->|Hr].
    + apply elem_of_cons. auto.
    + apply elem_of_cons. right. apply (IH _ _ eq_refl r Hr).
Qed.

(** X27.  Without strict two-phase locking, [Unlock] by a transaction that
    holds a lock on the record returns [true]; a [GROWING] transaction
    becomes [SHRINKING] and any other state is kept; the entry keeps only
    requests it had; its [oldest] does not grow and is at most the id of
    every request left. *)
Theorem Unlock_shrinks_and_lowers_oldest lm txn rid :
  strict_2PL_ lm = false →
  rid ∈ shared_lock_set_ txn ∨ rid ∈ exclusive_lock_set_ txn →
  ∃ lm' txn',
    Unlock oldest0 lm txn rid = Ok (true, lm', txn') ∧
    state_ txn' = (if bool_decide (state_ txn = GROWING) then SHRINKING else state_ txn) ∧
    (∀ r, r ∈ req_list (entry oldest0 lm' rid) → r ∈ req_list (entry oldest0 lm rid)) ∧
    (oldest (entry oldest0 lm' rid) ≤ oldest (entry oldest0 lm rid))%Z ∧
    Forall (λ r, (oldest (entry oldest0 lm' rid) ≤ txn_id r)%Z)
           (req_list (entry oldest0 lm' rid)).
Proof.
  intros Hstrict Hheld. unfold Unlock.
  assert (bool_decide (rid ∈ shared_lock_set_ txn) ||
          bool_decide (rid ∈ exclusive_lock_set_ txn) = true) as ->.
  { apply orb_true_iff. destruct Hheld; [left | right]; apply bool_decide_eq_true_2; auto. }
  simpl. rewrite Hstrict. simpl.
  set (txn0 := if bool_decide (state_ txn = GROWING) then SetState txn SHRINKING else txn).
  assert (state_ txn0 = if bool_decide (state_ txn = GROWING) then SHRINKING
                        else state_ txn) as Hstate.
  { unfold txn0. case_bool_decide; reflexivity. }
  set (w := entry oldest0 lm rid).
  destruct (Unlock_erase (txn_id_ txn0) (req_list w)) as [[m l]|] eqn:E.
  - pose proof (Unlock_erase_elem _ _ _ _ E) as Hsub.
    destruct (Unlock_oldest_bound (oldest w) l) as [Hle Hall].
    destruct m; simpl; eexists; eexists; (split; [reflexivity|]);
      rewrite entry_set_entry; simpl; auto.
  - destruct (Unlock_oldest_bound (oldest w) (req_list w)) as [Hle Hall].
    simpl. eexists. eexists. split; [reflexivity|].
    rewrite entry_set_entry. simpl. auto.
Qed.

(** X28.  [LockUpgrade] by a [GROWING] transaction that holds the shared
    lock goes through exactly when the entry's first request is the
    transaction's and no later request is granted: it then returns [true],
    makes that request exclusive, counts one more granted exclusive
    request and moves the record from the shared to the exclusive lock
    set.  Otherwise the caller blocks and its lock sets are as they
    were. *)
Theorem LockUpgrade_of_first_request lm txn rid w r rest :
  state_ txn = GROWING →
  rid ∈ shared_lock_set_ txn →
  lock_table_ lm !! rid = Some w →
  req_list w = r :: rest →
  LockUpgrade oldest0 lm txn rid =
  if bool_decide (txn_id r = txn_id_ txn ∧ Forall (λ q, granted q = false) rest)
  then Ok (Returned true,
           set_entry lm rid
             {| oldest := oldest w; exclusive_cnt := (exclusive_cnt w + 1)%Z;
                req_list := {| txn_id := txn_id r; lock_mode := EXCLUSIVE;
                               granted := granted r |} :: rest |},
           set_lock_sets txn (shared_lock_set_ txn ∖ {[rid]})
                         ({[rid]} ∪ exclusive_lock_set_ txn))
  else Ok (Blocked, lm, txn).
Proof.
  intros Hst Hs Hw Hl. unfold LockUpgrade. rewrite Hst. simpl.
  rewrite bool_decide_eq_true_2 by exact Hs. simpl.
  unfold LockUpgrade_resume, entry. rewrite Hw. simpl. rewrite Hl. simpl.
  assert (forallb (λ r', negb (granted r')) rest = true ↔
          Forall (λ q, granted q = false) rest) as Hall.
  { rewrite forallb_forall, Forall_forall. split; intros Hq q Hin.
    - apply list_elem_of_In in Hin. specialize (Hq q Hin). destruct (granted q);
        [discriminate | reflexivity].
    - apply list_elem_of_In in Hin. rewrite (Hq q Hin). reflexivity. }
  assert (set_entry lm rid w = lm) as Hsame.
  { unfold set_entry. destruct lm as [tbl st]. simpl in *. f_equal.
    apply insert_id, Hw. }
  case_bool_decide as Hhead; simpl.
  - rewrite bool_decide_eq_false_2 by tauto. rewrite Hsame. reflexivity.
  - destruct (forallb (λ r', negb (granted r')) rest) eqn:Hf.
    + rewrite bool_decide_eq_true_2; [reflexivity|].
      split; [destruct (decide (txn_id r = txn_id_ txn)); tauto | apply Hall; reflexivity].
    + rewrite bool_decide_eq_false_2; [rewrite Hsame; reflexivity|].
      intros [_ Hq]. apply Hall in Hq. congruence.
Qed.
End lock_more.

(** Transaction 1 holds the exclusive lock on record 7; transaction 2 is
    younger. *)
Lemma LockExclusive_refuses_exactly_witness :
  let lm := {| LockManager.lock_table_ :=
                 {[ 7%Z := LockManager.mkWaiting 1 1
                             [LockManager.mkRequest 1 LockManager.EXCLUSIVE true] ]};
               LockManager.strict_2PL_ := false |} in
  let txn := LockManager.begin_txn (RID := Z) 2 in
  LockManager.LockExclusive (-1) lm txn 7%Z
  = Ok (LockManager.Returned false, lm, LockManager.SetState txn LockManager.ABORTED) ↔
  (∃ w, LockManager.lock_table_ lm !! 7%Z = Some w ∧
        (LockManager.txn_id_ txn > LockManager.oldest w)%Z) ∧
  lm = lm ∧
  LockManager.SetState txn LockManager.ABORTED
  = LockManager.SetState txn LockManager.ABORTED.
Proof.
  intros lm txn.
  apply (LockExclusive_refuses_exactly (-1) lm txn 7%Z lm
           (LockManager.SetState txn LockManager.ABORTED)).
  - reflexivity.
  - apply not_elem_of_empty.
Defined.

Lemma first_request_is_granted_witness :
  let lm := LockManager.create (RID := Z) false in
  let txn := LockManager.begin_txn (RID := Z) 1 in
  LockManager.LockShared (-1) lm txn 7%Z =
    Ok (LockManager.Returned true,
        LockManager.set_entry lm 7%Z
          (LockManager.mkWaiting 1 0 [LockManager.mkRequest 1 LockManager.SHARED true]),
        LockManager.set_lock_sets txn ({[ 7%Z ]} ∪ ∅) ∅) ∧
  LockManager.LockExclusive (-1) lm txn 7%Z =
    Ok (LockManager.Returned true,
        LockManager.set_entry lm 7%Z
          (LockManager.mkWaiting 1 1 [LockManager.mkRequest 1 LockManager.EXCLUSIVE true]),
        LockManager.set_lock_sets txn ∅ ({[ 7%Z ]} ∪ ∅)).
Proof.
  intros lm txn. apply (first_request_is_granted (-1) lm txn 7%Z).
  - apply lookup_empty.
  - reflexivity.
  - apply not_elem_of_empty.
  - apply not_elem_of_empty.
Defined.

(** Transaction 2 asks behind the granted shared request of transaction 1. *)
Lemma wait_predicates_look_in_front_witness :
  let pre := [LockManager.mkRequest 1 LockManager.SHARED true] in
  let r := LockManager.mkRequest 2 LockManager.SHARED false in
  (LockManager.LockShared_pred 2 (pre ++ r :: []) = true ↔
   Forall (λ q, LockManager.lock_mode q = LockManager.SHARED ∧
                LockManager.granted q = false) pre) ∧
  (LockManager.LockExclusive_pred 2 (pre ++ r :: []) = true ↔
   Forall (λ q, LockManager.granted q = false) pre).
Proof.
  intros pre r. apply (wait_predicates_look_in_front 2 pre r []).
  - repeat constructor. simpl. lia.
  - reflexivity.
Defined.

Lemma LockExclusive_Unlock_round_trip_witness :
  let lm := LockManager.create (RID := Z) false in
  let txn := LockManager.begin_txn (RID := Z) 1 in
  ∃ lm1 txn1,
    LockManager.LockExclusive (-1) lm txn 7%Z = Ok (LockManager.Returned true, lm1, txn1) ∧
    LockManager.Unlock (-1) lm1 txn1 7%Z =
    Ok (true,
        LockManager.set_entry lm 7%Z (LockManager.mkWaiting 1 0 []),
        LockManager.SetState txn LockManager.SHRINKING).
Proof.
  intros lm txn. apply (LockExclusive_Unlock_round_trip (-1) lm txn 7%Z).
  - apply lookup_empty.
  - reflexivity.
  - reflexivity.
  - apply not_elem_of_empty.
Defined.

(** Transaction 1 holds a shared lock on record 7. *)
Lemma Unlock_shrinks_and_lowers_oldest_witness :
  let lm := {| LockManager.lock_table_ :=
                 {[ 7%Z := LockManager.mkWaiting 1 0
                             [LockManager.mkRequest 1 LockManager.SHARED true] ]};
               LockManager.strict_2PL_ := false |} in
  let txn := LockManager.mkTransaction LockManager.GROWING 1 {[ 7%Z ]} ∅ in
  ∃ lm' txn',
    LockManager.Unlock (-1) lm txn 7%Z = Ok (true, lm', txn') ∧
    LockManager.state_ txn'
    = (if bool_decide (LockManager.state_ txn = LockManager.GROWING)
       then LockManager.SHRINKING else LockManager.state_ txn) ∧
    (∀ r, r ∈ LockManager.req_list (LockManager.entry (-1) lm' 7%Z) →
          r ∈ LockManager.req_list (LockManager.entry (-1) lm 7%Z)) ∧
    (LockManager.oldest (LockManager.entry (-1) lm' 7%Z)
     ≤ LockManager.oldest (LockManager.entry (-1) lm 7%Z))%Z ∧
    Forall (λ r, (LockManager.oldest (LockManager.entry (-1) lm' 7%Z)
                  ≤ LockManager.txn_id r)%Z)
           (LockManager.req_list (LockManager.entry (-1) lm' 7%Z)).
Proof.
  intros lm txn. apply (Unlock_shrinks_and_lowers_oldest (-1) lm txn 7%Z).
  - reflexivity.
  - left. apply elem_of_singleton. reflexivity.
Defined.

Lemma LockUpgrade_of_first_request_witness :
  let w := LockManager.mkWaiting 1 0 [LockManager.mkRequest 1 LockManager.SHARED true] in
  let lm := {| LockManager.lock_table_ := {[ 7%Z := w ]};
               LockManager.strict_2PL_ := false |} in
  let txn := LockManager.mkTransaction LockManager.GROWING 1 {[ 7%Z ]} ∅ in
  LockManager.LockUpgrade (-1) lm txn 7%Z =
  if bool_decide (1%Z = LockManager.txn_id_ txn ∧
                  Forall (λ q, LockManager.granted q = false) [])
  then Ok (LockManager.Returned true,
           LockManager.set_entry lm 7%Z
             (LockManager.mkWaiting 1 (0 + 1)
                [LockManager.mkRequest 1 LockManager.EXCLUSIVE true]),
           LockManager.set_lock_sets txn ({[ 7%Z ]} ∖ {[ 7%Z ]}) ({[ 7%Z ]} ∪ ∅))
  else Ok (LockManager.Blocked, lm, txn).
Proof.
  intros w lm txn.
  apply (LockUpgrade_of_first_request (-1) lm txn 7%Z w
           (LockManager.mkRequest 1 LockManager.SHARED true) []).
  - reflexivity.
  - apply elem_of_singleton. reflexivity.
  - apply lookup_singleton_eq.
  - reflexivity.
Defined.
